(** * Calculadora de carbono: the route catalogue and the emission engine

    A shallow embedding of [js/routes-data.js] (the object [RoutesDB]),
    of the tables of [js/config.js] (the object [CONFIG]) and of the
    object [Calculator], followed by the properties of these functions.

    - JavaScript numbers are IEEE 754 binary64 values.  They are
      modelled by [spec_float] at precision 53 and maximal exponent
      1024, with the operations of [SpecFloat], which round to nearest,
      ties to even.
    - JavaScript strings are sequences of UTF-16 code units.  Of
      [String.prototype.toLowerCase], a function of the whole of Unicode,
      only the value on the strings of Latin-1 is used; the properties
      that need it take the function as a parameter and assume this
      value.
    - [Array.prototype.sort] is a stable sort; it is modelled by a
      stable insertion.
    - The calls of [console.warn] have no effect on the results and are
      left out. *)

From Stdlib Require Import ZArith NArith List Bool Lia String Ascii.
From Stdlib Require Import Sorted Permutation SpecFloat.
Import ListNotations.

Local Open Scope Z_scope.

(** ** Numbers *)

Module JSNumber.

Definition number : Type := spec_float.

Definition prec : Z := 53.
Definition emax : Z := 1024.

Definition mul : number -> number -> number := SFmul prec emax.
Definition div : number -> number -> number := SFdiv prec emax.
Definition add : number -> number -> number := SFadd prec emax.
Definition sub : number -> number -> number := SFsub prec emax.

(** [x < y] and [x === y] on numbers. *)
Definition ltb : number -> number -> bool := SFltb.
Definition strict_eq : number -> number -> bool := SFeqb.

(** The number denoted by an integer literal. *)
Definition of_Z (z : Z) : number := binary_normalize prec emax z 0 false.

(** The number denoted by the decimal literal [m / 10^k]: the binary64
    value nearest to it.  Both [m] and [10^k] are exact in binary64 for
    the literals used here, and division is correctly rounded. *)
Definition dec (m : Z) (k : Z) : number := div (of_Z m) (of_Z (10 ^ k)).

Definition zero : number := S754_zero false.
Definition NaN : number := S754_nan.

(** A number that is neither NaN nor infinite. *)
Definition is_finite (x : number) : bool :=
  match x with
  | S754_zero _ | S754_finite _ _ _ => true
  | _ => false
  end.

(** The sign bit of a number ([true] for negative), [false] on NaN. *)
Definition sign (x : number) : bool :=
  match x with
  | S754_zero s | S754_infinity s | S754_finite s _ _ => s
  | S754_nan => false
  end.

(** [Math.round]: the integer nearest to [x], the larger one on a tie,
    that is [floor (x + 1/2)] computed exactly.  Integral values,
    infinities and NaN are returned unchanged; a result of zero keeps
    the sign of [x]. *)
Definition Math_round (x : number) : number :=
  match x with
  | S754_finite s m e =>
      if 0 <=? e then x
      else match Z.shiftr (2 * cond_Zopp s (Zpos m) + 2 ^ (- e)) (1 - e) with
           | Z0 => S754_zero s
           | n => of_Z n
           end
  | _ => x
  end.

(** Rounding to the nearest integer with ties away from zero: the
    rounding the specification names.  It is [floor (|x| + 1/2)] with
    the sign of [x]. *)
Definition round_half_away (x : number) : number :=
  match x with
  | S754_finite s m e =>
      if 0 <=? e then x
      else match Z.shiftr (2 * Zpos m + 2 ^ (- e)) (1 - e) with
           | Z0 => S754_zero s
           | n => of_Z (cond_Zopp s n)
           end
  | _ => x
  end.

End JSNumber.

Import JSNumber.

(** ** Strings *)

Module JSString.

(** A string is its sequence of UTF-16 code units. *)
Definition jsstring : Type := list N.

Local Open Scope N_scope.

Fixpoint bytes_of (s : string) : list N :=
  match s with
  | EmptyString => []
  | String a s' => N_of_ascii a :: bytes_of s'
  end.

(** Code units of a text given by its UTF-8 bytes (one, two and three
    byte sequences; a four byte sequence gives a surrogate pair). *)
Fixpoint utf16_of_utf8 (bs : list N) : jsstring :=
  match bs with
  | [] => []
  | b0 :: r0 =>
      if b0 <? 128 then b0 :: utf16_of_utf8 r0
      else
        match r0 with
        | [] => [b0]
        | b1 :: r1 =>
            if b0 <? 224 then (b0 mod 32) * 64 + b1 mod 64 :: utf16_of_utf8 r1
            else
              match r1 with
              | [] => [b0; b1]
              | b2 :: r2 =>
                  if b0 <? 240
                  then (b0 mod 16) * 4096 + (b1 mod 64) * 64 + b2 mod 64
                         :: utf16_of_utf8 r2
                  else
                    match r2 with
                    | [] => [b0; b1; b2]
                    | b3 :: r3 =>
                        let cp := (b0 mod 8) * 262144 + (b1 mod 64) * 4096
                                  + (b2 mod 64) * 64 + b3 mod 64 in
                        55296 + (cp - 65536) / 1024
                          :: 56320 + (cp - 65536) mod 1024
                          :: utf16_of_utf8 r3
                    end
              end
        end
  end.

(** The string written by a literal of the source. *)
Definition js (s : string) : jsstring := utf16_of_utf8 (bytes_of s).

Definition eqb (s t : jsstring) : bool :=
  if list_eq_dec N.eq_dec s t then true else false.

(** [s < t] on strings: lexicographic on code units, the order of the
    default comparison of [Array.prototype.sort]. *)
Fixpoint ltb (s t : jsstring) : bool :=
  match s, t with
  | _, [] => false
  | [], _ :: _ => true
  | a :: s', b :: t' => (a <? b) || ((a =? b) && ltb s' t')
  end.

(** White space and line terminators, the code units [trim] removes. *)
Definition isWhiteSpace (c : N) : bool :=
  (9 <=? c) && (c <=? 13) || (c =? 32) || (c =? 160) || (c =? 5760)
  || (8192 <=? c) && (c <=? 8202) || (c =? 8232) || (c =? 8233)
  || (c =? 8239) || (c =? 8287) || (c =? 12288) || (c =? 65279).

Fixpoint trimStart (s : jsstring) : jsstring :=
  match s with
  | c :: s' => if isWhiteSpace c then trimStart s' else s
  | [] => []
  end.

Definition trimEnd (s : jsstring) : jsstring := rev (trimStart (rev s)).

Definition trim (s : jsstring) : jsstring := trimEnd (trimStart s).

(** Lower case of one code unit of Basic Latin or of the Latin-1
    Supplement: [A]-[Z] and U+00C0-U+00DE but the multiplication sign
    move up by 32, every other code unit below 256 is unchanged. *)
Definition lowerLatin1 (c : N) : N :=
  if (65 <=? c) && (c <=? 90) then c + 32
  else if (192 <=? c) && (c <=? 222) && negb (c =? 215) then c + 32
  else c.

Definition isLatin1 (s : jsstring) : Prop := Forall (fun c => c < 256) s.

Definition isLatin1b (s : jsstring) : bool := forallb (fun c => c <? 256) s.

(** What is assumed of [String.prototype.toLowerCase], a function of the
    whole of Unicode: its value on the strings of Latin-1. *)
Definition lowercases_latin1 (toLowerCase : jsstring -> jsstring) : Prop :=
  forall s, isLatin1 s -> toLowerCase s = map lowerLatin1 s.

(** A string is falsy when it is empty. *)
Definition falsy (s : jsstring) : bool :=
  match s with [] => true | _ => false end.

End JSString.

Import JSString.

(** ** Arrays *)

Module JSArray.

Section Sort.
Context {A : Type}.
(** [before x y]: the comparison puts [x] strictly before [y]. *)
Variable before : A -> A -> bool.

Fixpoint insert (x : A) (l : list A) : list A :=
  match l with
  | [] => [x]
  | y :: l' => if before x y then x :: l else y :: insert x l'
  end.

(** [Array.prototype.sort]: a stable sort.  Each element, in turn, is
    put behind the elements it is not strictly before. *)
Definition sort (l : list A) : list A :=
  fold_left (fun acc x => insert x acc) l [].
End Sort.

(** [array.find(p)] is [List.find]. *)

End JSArray.

(** ** config.js *)

Module CONFIG.

(** The value of a property read from an object literal. *)
Inductive value :=
| Undefined
| Num (x : number)
| Inherited.  (* a function or an object of [Object.prototype] *)

Definition EMISSION_FACTORS : list (jsstring * number) :=
  [ (js "bicycle", of_Z 0);
    (js "car", dec 12 2);
    (js "plane", dec 20 2);
    (js "boat", dec 15 2);
    (js "bus", dec 89 3);
    (js "truck", dec 96 2) ].

(** The names every object literal inherits from [Object.prototype]. *)
Definition Object_prototype : list jsstring :=
  map js [ "constructor"; "__defineGetter__"; "__defineSetter__";
           "hasOwnProperty"; "__lookupGetter__"; "__lookupSetter__";
           "isPrototypeOf"; "propertyIsEnumerable"; "toString"; "valueOf";
           "__proto__"; "toLocaleString" ]%string.

Fixpoint own {V : Type} (o : list (jsstring * V)) (k : jsstring) : option V :=
  match o with
  | [] => None
  | (k', v) :: o' => if JSString.eqb k' k then Some v else own o' k
  end.

(** [o[k]]: the own property, then the prototype. *)
Definition get (o : list (jsstring * number)) (k : jsstring) : value :=
  match own o k with
  | Some x => Num x
  | None => if existsb (JSString.eqb k) Object_prototype then Inherited
            else Undefined
  end.

(** [Object.keys(o)]: the own names in insertion order. *)
Definition Object_keys {V : Type} (o : list (jsstring * V)) : list jsstring :=
  map fst o.

(** The number an operand of [*] is converted to; the functions and
    objects of [Object.prototype] convert to NaN. *)
Definition ToNumber (v : value) : number :=
  match v with
  | Num x => x
  | Undefined | Inherited => NaN
  end.

Definition KG_PER_CREDIT : number := of_Z 1000.
Definition PRICE_MIN_BRL : number := of_Z 50.
Definition PRICE_MAX_BRL : number := of_Z 150.

End CONFIG.

(** ** app.js: the object Calculator *)

Module Calculator.

Import CONFIG.

Definition n100 : number := of_Z 100.
Definition n10000 : number := of_Z 10000.

Definition calculateEmission (distanceKm : number) (transportMode : jsstring)
  : number :=
  if JSNumber.ltb distanceKm zero || falsy transportMode then zero
  else
    match get EMISSION_FACTORS transportMode with
    | Undefined => zero
    | emissionFactor =>
        let emission := mul distanceKm (ToNumber emissionFactor) in
        div (Math_round (mul emission n100)) n100
    end.

Record ComparisonEntry := {
  mode : jsstring;
  emission : number;
  percentageVsCar : number
}.

(** One entry of the comparison, the body of the [forEach]. *)
Definition entry (distanceKm carEmission : number) (mode : jsstring)
  : ComparisonEntry :=
  let emission := calculateEmission distanceKm mode in
  let percentageVsCar := mul (div emission carEmission) n100 in
  {| mode := mode;
     emission := emission;
     percentageVsCar := div (Math_round (mul percentageVsCar n100)) n100 |}.

(** The comparison function [(a, b) => a.emission - b.emission] puts [a]
    before [b] when its result is negative. *)
Definition byEmission (a b : ComparisonEntry) : bool :=
  JSNumber.ltb (sub (emission a) (emission b)) zero.

Definition calculateAllModes (distanceKm : number) : list ComparisonEntry :=
  let carEmission := calculateEmission distanceKm (js "car") in
  if strict_eq carEmission zero then []
  else
    JSArray.sort byEmission
      (map (entry distanceKm carEmission) (Object_keys EMISSION_FACTORS)).

Record Savings := { savedKg : number; percentage : number }.

Definition calculateSavings (emission baselineEmission : number) : Savings :=
  if strict_eq baselineEmission zero then {| savedKg := zero; percentage := zero |}
  else
    let savedKg := div (Math_round (mul (sub baselineEmission emission) n100)) n100 in
    let percentage := div (Math_round (mul (div savedKg baselineEmission) n10000)) n100 in
    {| savedKg := savedKg; percentage := percentage |}.

Definition calculateCarbonCredits (emissionKg : number) : number :=
  if JSNumber.ltb emissionKg zero then zero
  else
    let credits := div emissionKg KG_PER_CREDIT in
    div (Math_round (mul credits n10000)) n10000.

Record Price := { min : number; max : number; average : number }.

Definition estimateCreditPrice (credits : number) : Price :=
  if JSNumber.ltb credits zero then {| min := zero; max := zero; average := zero |}
  else
    let minPrice := div (Math_round (mul (mul credits PRICE_MIN_BRL) n100)) n100 in
    let maxPrice := div (Math_round (mul (mul credits PRICE_MAX_BRL) n100)) n100 in
    let averagePrice :=
      div (Math_round (mul (div (add minPrice maxPrice) (of_Z 2)) n100)) n100 in
    {| min := minPrice; max := maxPrice; average := averagePrice |}.

End Calculator.

(** ** routes-data.js: the object RoutesDB *)

Module RoutesDB.

Record Route := {
  origin : jsstring;
  destination : jsstring;
  distanceKm : number
}.

Definition route (o d : string) (km : Z) : Route :=
  {| origin := js o; destination := js d; distanceKm := of_Z km |}.

Definition routes : list Route :=
  [ (* Rotas Sudeste *)
    route "São Paulo, SP" "Rio de Janeiro, RJ" 430;
    route "São Paulo, SP" "Brasília, DF" 1015;
    route "Rio de Janeiro, RJ" "Brasília, DF" 1148;
    route "São Paulo, SP" "Campinas, SP" 95;
    route "Rio de Janeiro, RJ" "Niterói, RJ" 13;
    route "Belo Horizonte, MG" "Ouro Preto, MG" 100;
    route "São Paulo, SP" "Belo Horizonte, MG" 586;
    route "Rio de Janeiro, RJ" "Belo Horizonte, MG" 716;
    route "São Paulo, SP" "Sorocaba, SP" 108;
    route "São Paulo, SP" "Guarulhos, SP" 28;
    (* Rotas Norte *)
    route "Manaus, AM" "Rio Branco, AC" 1800;
    route "Belém, PA" "Manaus, AM" 1665;
    route "Belém, PA" "Brasília, DF" 1863;
    route "Manaus, AM" "Brasília, DF" 2187;
    (* Rotas Nordeste *)
    route "Salvador, BA" "Brasília, DF" 1268;
    route "Recife, PE" "Salvador, BA" 766;
    route "Fortaleza, CE" "Brasília, DF" 2145;
    route "Natal, RN" "Recife, PE" 299;
    route "Maceió, AL" "Recife, PE" 240;
    route "São Luís, MA" "Brasília, DF" 2125;
    route "Teresina, PI" "Brasília, DF" 1704;
    (* Rotas Sul *)
    route "Curitiba, PR" "Brasília, DF" 1110;
    route "Rio de Janeiro, RJ" "Curitiba, PR" 920;
    route "São Paulo, SP" "Curitiba, PR" 408;
    route "Porto Alegre, RS" "Curitiba, PR" 1090;
    route "Curitiba, PR" "Londrina, PR" 380;
    route "Brasília, DF" "Porto Alegre, RS" 2020;
    route "Santa Maria, RS" "Porto Alegre, RS" 290;
    route "Florianópolis, SC" "Porto Alegre, RS" 640;
    (* Rotas Centro-Oeste *)
    route "Brasília, DF" "Goiânia, GO" 209;
    route "Brasília, DF" "Cuiabá, MT" 925;
    route "Goiânia, GO" "São Paulo, SP" 917;
    route "Campo Grande, MS" "Brasília, DF" 1315;
    route "Cuiabá, MT" "Goiânia, GO" 1070;
    (* Rotas adicionais importantes *)
    route "Santos, SP" "São Paulo, SP" 72;
    route "Jundiaí, SP" "São Paulo, SP" 60;
    route "Ribeirão Preto, SP" "São Paulo, SP" 310;
    route "Araçatuba, SP" "São Paulo, SP" 520;
    route "Vitória, ES" "Rio de Janeiro, RJ" 521 ]%string.

(** [citiesSet.add(c)] on a [Set] kept in insertion order. *)
Definition Set_add (citiesSet : list jsstring) (c : jsstring) : list jsstring :=
  if existsb (JSString.eqb c) citiesSet then citiesSet else citiesSet ++ [c].

(** The body of the [forEach]: the two names of a route join the set. *)
Definition add_route (citiesSet : list jsstring) (route : Route) : list jsstring :=
  Set_add (Set_add citiesSet (origin route)) (destination route).

(** [getAllCities], on the routes of [this]. *)
Definition getAllCities (this_routes : list Route) : list jsstring :=
  let citiesSet := fold_left add_route this_routes [] in
  JSArray.sort JSString.ltb citiesSet.

Section FindDistance.
Variable toLowerCase : jsstring -> jsstring.

(** The two predicates given to [find]. *)
Definition forward (normalizedOrigin normalizedDestination : jsstring)
           (route : Route) : bool :=
  JSString.eqb (toLowerCase (origin route)) normalizedOrigin
  && JSString.eqb (toLowerCase (destination route)) normalizedDestination.

Definition reverse (normalizedOrigin normalizedDestination : jsstring)
           (route : Route) : bool :=
  JSString.eqb (toLowerCase (origin route)) normalizedDestination
  && JSString.eqb (toLowerCase (destination route)) normalizedOrigin.

(** [findDistance], on the routes of [this]; [None] is [null]. *)
Definition findDistance (this_routes : list Route)
           (origin destination : jsstring) : option number :=
  let normalizedOrigin := toLowerCase (trim origin) in
  let normalizedDestination := toLowerCase (trim destination) in
  match find (forward normalizedOrigin normalizedDestination) this_routes with
  | Some routeForward => Some (distanceKm routeForward)
  | None =>
      match find (reverse normalizedOrigin normalizedDestination) this_routes with
      | Some routeReverse => Some (distanceKm routeReverse)
      | None => None
      end
  end.
End FindDistance.

End RoutesDB.

(** ** Vocabulary of the properties *)

(** The two names of a route. *)
Definition names (r : RoutesDB.Route) : list jsstring := [RoutesDB.origin r; RoutesDB.destination r].
(** [s <= t] on strings. *)
Definition str_le (s t : jsstring) : Prop := JSString.ltb t s = false.

(** A stored route matches the pair of normalised names [(x, y)]. *)
Definition matches (toLowerCase : jsstring -> jsstring) (x y : jsstring)
           (r : RoutesDB.Route) : Prop :=
  toLowerCase (RoutesDB.origin r) = x /\ toLowerCase (RoutesDB.destination r) = y.

(** The lower-cased names of a route of Latin-1. *)
Definition route_key (r : RoutesDB.Route) : jsstring * jsstring :=
  (map lowerLatin1 (RoutesDB.origin r), map lowerLatin1 (RoutesDB.destination r)).

Definition key_eqb (k k' : jsstring * jsstring) : bool :=
  JSString.eqb (fst k) (fst k') && JSString.eqb (snd k) (snd k').

Fixpoint distinct_keys (ks : list (jsstring * jsstring)) : bool :=
  match ks with
  | [] => true
  | k :: ks' => negb (existsb (key_eqb k) ks') && distinct_keys ks'
  end.

(** No route of the list is stored twice, in the same or in the opposite
    direction, and none joins a place to itself. *)
Definition unambiguous (rs : list RoutesDB.Route) : bool :=
  distinct_keys (map route_key rs)
  && forallb (fun r => negb (existsb (key_eqb (snd (route_key r), fst (route_key r))) (map route_key rs))) rs.

(** The names of a route are of Latin-1 and carry no surrounding white
    space. *)
Definition clean (r : RoutesDB.Route) : bool :=
  isLatin1b (RoutesDB.origin r) && isLatin1b (RoutesDB.destination r)
  && JSString.eqb (trim (RoutesDB.origin r)) (RoutesDB.origin r)
  && JSString.eqb (trim (RoutesDB.destination r)) (RoutesDB.destination r).

(** ** The roundings of the specification *)

(** [x >= y] and [x <= y] on numbers. *)
Definition leb (x y : number) : bool := SFleb x y.

(** [round2 x = round (x * 100) / 100] and [round4 x = round (x * 10000) /
    10000], with the rounding to the nearest integer, ties away from
    zero. *)
Definition round2 (x : number) : number :=
  div (round_half_away (mul x (of_Z 100))) (of_Z 100).

Definition round4 (x : number) : number :=
  div (round_half_away (mul x (of_Z 10000))) (of_Z 10000).

(** The strings of a list are pairwise different. *)
Fixpoint distinct (l : list jsstring) : bool :=
  match l with
  | [] => true
  | s :: l' => negb (existsb (JSString.eqb s) l') && distinct l'
  end.

(** ** Rounding on integers *)

(** [rne V K]: the multiple of [2^K] nearest to [V], the even one on a
    tie, as a number of multiples. *)
Definition rne (V K : Z) : Z :=
  let a := V / 2 ^ K in
  let r := V mod 2 ^ K in
  if 2 * r <? 2 ^ K then a
  else if 2 * r =? 2 ^ K then (if Z.even a then a else a + 1)
  else a + 1.

(** The integer [x * 2^(-c)] for a positive finite [x] whose exponent is
    at least [c], and 0 for a zero. *)
Definition scaled (c : Z) (x : number) : Z :=
  match x with
  | S754_finite _ m e => Zpos m * 2 ^ (e - c)
  | _ => 0
  end.

(** A number of the format: its mantissa is normalised and its exponent
    is in range. *)
Definition valid (x : number) : Prop := valid_binary prec emax x = true.

(** The shape of a rounded result: a zero, an infinity, or a finite
    number of the format, with the sign given. *)
Definition rounded (s : bool) (x : number) : Prop :=
  x = S754_zero s \/ x = S754_infinity s
  \/ exists m e, x = S754_finite s m e /\ bounded prec emax m e = true.

(** The place of a number that is not negative on the scale of the
    multiples of [2^-1074]; an infinity comes after every finite number. *)
Definition key (x : number) : Z :=
  match x with
  | S754_infinity _ => 2 ^ 2100
  | _ => scaled (-1074) x
  end.

(** A zero, an infinity or a finite number with the sign bit [s]: with
    [s = true], a negative number or the negative zero. *)
Definition shape (s : bool) (x : number) : Prop :=
  x = S754_zero s \/ x = S754_infinity s \/ exists m e, x = S754_finite s m e.

(** The order of two entries of the comparison, on rounded emissions. *)
Definition entry_le (a b : Calculator.ComparisonEntry) : Prop :=
  rounded false (Calculator.emission a) /\ rounded false (Calculator.emission b)
  /\ leb (Calculator.emission a) (Calculator.emission b) = true.

(** The rounding of the format on the scale of the multiples of [2^c]:
    an integer [V] is rounded to a multiple of [2^K], where [K] leaves
    53 digits or is the least exponent of the format. *)
Definition round_exponent (c V : Z) : Z := fexp prec emax (Zdigits2 V + c) - c.

Definition round_scaled (c V : Z) : Z :=
  rne V (round_exponent c V) * 2 ^ round_exponent c V.

(** The greatest number of the format below 1/24, and the next one. *)
Definition below_24th : number := S754_finite false 6004799503160661 (-57).
Definition above_24th : number := S754_finite false 6004799503160662 (-57).

(** * Properties *)

(** ** The literals and [Math.round] on examples *)

Section Examples.

Example literal_0_12 : dec 12 2 = S754_finite false 8646911284551352 (-56).
Proof. reflexivity. Qed.

Example literal_0_089 : dec 89 3 = S754_finite false 6413125869375586 (-56).
Proof. reflexivity. Qed.

Example literal_100 : of_Z 100 = S754_finite false 7036874417766400 (-46).
Proof. reflexivity. Qed.

Example Math_round_tie_up : Math_round (dec 25 1) = of_Z 3.
Proof. reflexivity. Qed.

Example Math_round_negative_tie_up : Math_round (dec (-25) 1) = of_Z (-2).
Proof. reflexivity. Qed.

Example Math_round_negative_zero : Math_round (dec (-5) 1) = S754_zero true.
Proof. reflexivity. Qed.

Example round_half_away_negative_tie : round_half_away (dec (-25) 1) = of_Z (-3).
Proof. reflexivity. Qed.

Example trim_example : trim (js "  Manaus, AM ") = js "Manaus, AM".
Proof. reflexivity. Qed.

End Examples.

(** ** Strings: equality and order *)

Section StringFacts.

Lemma jsstring_eqb_eq (s t : jsstring) : JSString.eqb s t = true <-> s = t.
Proof.
  unfold JSString.eqb. destruct (list_eq_dec N.eq_dec s t); split; congruence.
Qed.

Lemma jsstring_eqb_refl (s : jsstring) : JSString.eqb s s = true.
Proof. now apply jsstring_eqb_eq. Qed.

Lemma jsstring_eqb_neq (s t : jsstring) : JSString.eqb s t = false <-> s <> t.
Proof.
  unfold JSString.eqb. destruct (list_eq_dec N.eq_dec s t); split; congruence.
Qed.

Lemma ltb_irrefl (s : jsstring) : JSString.ltb s s = false.
Proof.
  induction s as [|a s IH]; simpl; trivial.
  rewrite N.ltb_irrefl, N.eqb_refl, IH. reflexivity.
Qed.

Lemma ltb_trans (s t u : jsstring) :
  JSString.ltb s t = true -> JSString.ltb t u = true -> JSString.ltb s u = true.
Proof.
  revert t u. induction s as [|a s IH]; intros [|b t] [|c u]; simpl; try discriminate; trivial.
  rewrite !orb_true_iff, !andb_true_iff, !N.ltb_lt, !N.eqb_eq.
  intros [Hab|[Hab Hst]] [Hbc|[Hbc Htu]].
  - left. lia.
  - left. lia.
  - left. lia.
  - right. split; [lia|]. eapply IH; eassumption.
Qed.

Lemma ltb_total (s t : jsstring) :
  JSString.ltb s t = false -> JSString.ltb t s = false -> s = t.
Proof.
  revert t. induction s as [|a s IH]; intros [|b t]; simpl; try discriminate; trivial.
  rewrite !orb_false_iff, !andb_false_iff, !N.ltb_ge, !N.eqb_neq.
  intros [Hab Hab'] [Hba Hba'].
  assert (a = b) by lia. subst b.
  f_equal. apply IH.
  - destruct Hab' as [Hn|]; [now elim Hn | assumption].
  - destruct Hba' as [Hn|]; [now elim Hn | assumption].
Qed.

Lemma ltb_asym (s t : jsstring) :
  JSString.ltb s t = true -> JSString.ltb t s = false.
Proof.
  intros Hst. destruct (JSString.ltb t s) eqn:Hts; trivial.
  rewrite <- (ltb_irrefl s). symmetry. eapply ltb_trans; eassumption.
Qed.

Lemma str_le_trans (s t u : jsstring) : str_le s t -> str_le t u -> str_le s u.
Proof.
  unfold str_le. intros Hts Hut.
  destruct (JSString.ltb u s) eqn:Hus; trivial.
  destruct (JSString.ltb s t) eqn:Hst.
  - rewrite (ltb_trans _ _ _ Hus Hst) in Hut. discriminate.
  - assert (s = t) by now apply ltb_total. subst t. congruence.
Qed.

Lemma trimStart_latin1 (s : jsstring) : isLatin1 s -> isLatin1 (trimStart s).
Proof.
  unfold isLatin1. induction 1 as [|c s Hc Hs IH]; simpl; [constructor|].
  destruct (isWhiteSpace c); [assumption | now constructor].
Qed.

Lemma trim_latin1 (s : jsstring) : isLatin1 s -> isLatin1 (trim s).
Proof.
  intros Hs. unfold trim, trimEnd, isLatin1.
  apply Forall_rev. apply trimStart_latin1. apply Forall_rev.
  now apply trimStart_latin1.
Qed.

Lemma isLatin1b_spec (s : jsstring) : isLatin1b s = true -> isLatin1 s.
Proof.
  unfold isLatin1b, isLatin1. rewrite forallb_forall, Forall_forall.
  intros H c Hc. apply N.ltb_lt. now apply H.
Qed.

End StringFacts.

(** ** Arrays: the sort *)

Section SortFacts.
Context {A : Type}.
Variable before : A -> A -> bool.

Lemma insert_perm (x : A) (l : list A) :
  Permutation (JSArray.insert before x l) (x :: l).
Proof.
  induction l as [|y l IH]; simpl; [reflexivity|].
  destruct (before x y); [reflexivity|].
  rewrite IH. apply perm_swap.
Qed.

Lemma sort_fold_perm (l acc : list A) :
  Permutation (fold_left (fun acc x => JSArray.insert before x acc) l acc)
              (acc ++ l).
Proof.
  revert acc. induction l as [|x l IH]; intros acc; simpl.
  - now rewrite app_nil_r.
  - rewrite IH, insert_perm. now rewrite <- Permutation_middle.
Qed.

Lemma sort_perm (l : list A) : Permutation (JSArray.sort before l) l.
Proof. unfold JSArray.sort. now rewrite sort_fold_perm. Qed.

(** The sort orders by [le] the elements of a domain [P] on which the
    comparison decides [le]. *)
Variable P : A -> Prop.
Variable le : A -> A -> Prop.
Hypothesis before_le : forall x y, P x -> P y -> before x y = true -> le x y.
Hypothesis not_before_le : forall x y, P x -> P y -> before x y = false -> le y x.

Lemma insert_sorted (x : A) (l : list A) :
  P x -> Forall P l -> Sorted le l -> Sorted le (JSArray.insert before x l).
Proof.
  intros Px Pl Hl. induction Hl as [|y l Hl IH Hy]; simpl.
  - repeat constructor.
  - inversion Pl as [|? ? Py Pl']; subst.
    destruct (before x y) eqn:Hxy.
    + constructor; [now constructor|]. constructor. now apply before_le.
    + constructor; [now apply IH|].
      destruct l as [|z l]; simpl.
      * constructor. now apply not_before_le.
      * destruct (before x z).
        -- constructor. now apply not_before_le.
        -- constructor. now inversion Hy.
Qed.

Lemma sort_fold_sorted (l acc : list A) :
  Forall P l -> Forall P acc -> Sorted le acc ->
  Sorted le (fold_left (fun acc x => JSArray.insert before x acc) l acc).
Proof.
  revert acc. induction l as [|x l IH]; intros acc Pl Pacc Hacc; simpl; trivial.
  inversion Pl; subst. apply IH; trivial.
  - eapply Permutation_Forall; [symmetry; apply insert_perm|]. now constructor.
  - now apply insert_sorted.
Qed.

Lemma sort_sorted (l : list A) : Forall P l -> Sorted le (JSArray.sort before l).
Proof. intros Pl. apply sort_fold_sorted; trivial. Qed.

End SortFacts.

(** ** RoutesDB.getAllCities *)

Section CitiesFacts.
Import RoutesDB.

Lemma existsb_eqb_In (c : jsstring) (l : list jsstring) :
  existsb (JSString.eqb c) l = true <-> In c l.
Proof.
  rewrite existsb_exists. split.
  - intros (x & Hx & Heq). apply jsstring_eqb_eq in Heq. now subst.
  - intros Hc. exists c. split; [assumption | apply jsstring_eqb_refl].
Qed.

Lemma Set_add_In (s : list jsstring) (c x : jsstring) :
  In x (Set_add s c) <-> In x s \/ x = c.
Proof.
  unfold Set_add. destruct (existsb (JSString.eqb c) s) eqn:Hc.
  - apply existsb_eqb_In in Hc. split; [now left | intros [H| ->]; assumption].
  - rewrite in_app_iff. simpl. intuition congruence.
Qed.

Lemma Set_add_NoDup (s : list jsstring) (c : jsstring) :
  NoDup s -> NoDup (Set_add s c).
Proof.
  intros Hs. unfold Set_add. destruct (existsb (JSString.eqb c) s) eqn:Hc; trivial.
  assert (~ In c s) as Hn.
  { intros Hin. apply existsb_eqb_In in Hin. congruence. }
  apply NoDup_app; trivial.
  - repeat constructor. intros [].
  - intros x Hx [<-|[]]. now apply Hn.
Qed.

Lemma citiesSet_In (rs : list Route) (acc : list jsstring) (x : jsstring) :
  In x (fold_left add_route rs acc)
  <-> In x acc \/ In x (flat_map names rs).
Proof.
  revert acc. induction rs as [|r rs IH]; intros acc; simpl.
  - tauto.
  - rewrite IH. unfold add_route. rewrite !Set_add_In. intuition congruence.
Qed.

Lemma citiesSet_NoDup (rs : list Route) (acc : list jsstring) :
  NoDup acc -> NoDup (fold_left add_route rs acc).
Proof.
  revert acc. induction rs as [|r rs IH]; intros acc Hacc; simpl; trivial.
  apply IH. unfold add_route. now do 2 apply Set_add_NoDup.
Qed.

Lemma getAllCities_perm (rs : list Route) :
  Permutation (getAllCities rs) (fold_left add_route rs []).
Proof. unfold getAllCities. apply sort_perm. Qed.

Lemma getAllCities_NoDup (rs : list Route) : NoDup (getAllCities rs).
Proof.
  eapply Permutation_NoDup; [symmetry; apply getAllCities_perm|].
  apply citiesSet_NoDup. constructor.
Qed.

Lemma getAllCities_In (rs : list Route) (c : jsstring) :
  In c (getAllCities rs) <-> In c (flat_map names rs).
Proof.
  split; intros H.
  - apply (Permutation_in _ (getAllCities_perm rs)) in H.
    apply citiesSet_In in H. destruct H as [[]|H]; assumption.
  - apply (Permutation_in _ (Permutation_sym (getAllCities_perm rs))).
    apply citiesSet_In. now right.
Qed.

Lemma StronglySorted_strict (l : list jsstring) :
  NoDup l -> StronglySorted str_le l ->
  StronglySorted (fun s t => JSString.ltb s t = true) l.
Proof.
  intros Hnd Hs. induction Hs as [|x l Hs IH Hx]; constructor.
  - apply IH. now inversion Hnd.
  - inversion Hnd as [|? ? Hnin _]; subst.
    rewrite Forall_forall in *. intros y Hy.
    destruct (JSString.ltb x y) eqn:Hxy; trivial.
    assert (x = y) by (apply ltb_total; [assumption | now apply Hx]).
    subst y. contradiction.
Qed.

(** C9. [getAllCities] returns the place names that appear as origin or
    destination of a route, each one once, in ascending lexicographic
    order of their code units; their number is the number of distinct
    names of the routes. *)
Theorem getAllCities_sorted_distinct (this_routes : list Route) :
  NoDup (getAllCities this_routes)
  /\ StronglySorted (fun s t => JSString.ltb s t = true) (getAllCities this_routes)
  /\ (forall c, In c (getAllCities this_routes) <-> In c (flat_map names this_routes))
  /\ List.length (getAllCities this_routes)
     = List.length (nodup (list_eq_dec N.eq_dec) (flat_map names this_routes)).
Proof.
  split; [apply getAllCities_NoDup|]. split; [|split].
  - apply StronglySorted_strict; [apply getAllCities_NoDup|].
    apply Sorted_StronglySorted.
    + intros x y z. apply str_le_trans.
    + unfold getAllCities.
      apply sort_sorted with (P := fun _ => True).
      * intros x y _ _ H. unfold str_le. now apply ltb_asym.
      * intros x y _ _ H. exact H.
      * apply Forall_forall. trivial.
  - apply getAllCities_In.
  - apply Permutation_length. apply NoDup_Permutation.
    + apply getAllCities_NoDup.
    + apply NoDup_nodup.
    + intros c. rewrite getAllCities_In, nodup_In. reflexivity.
Qed.

(** The catalogue of the source names 32 places. *)
Example getAllCities_routes_length : List.length (getAllCities routes) = 32%nat.
Proof. vm_compute. reflexivity. Qed.

Lemma distinct_NoDup (l : list jsstring) : distinct l = true -> NoDup l.
Proof.
  induction l as [|s l IH]; simpl; [constructor|].
  rewrite andb_true_iff, negb_true_iff. intros [Hs Hl].
  constructor; [|now apply IH].
  intros Hin. apply existsb_eqb_In in Hin. congruence.
Qed.

End CitiesFacts.

(** ** RoutesDB.findDistance *)

Section FindDistanceFacts.
Import RoutesDB.

Variable toLowerCase : jsstring -> jsstring.

Lemma forward_matches (x y : jsstring) (r : Route) :
  forward toLowerCase x y r = true <-> matches toLowerCase x y r.
Proof.
  unfold forward, matches. now rewrite andb_true_iff, !jsstring_eqb_eq.
Qed.

Lemma reverse_matches (x y : jsstring) (r : Route) :
  reverse toLowerCase x y r = true <-> matches toLowerCase y x r.
Proof.
  unfold reverse, matches. now rewrite andb_true_iff, !jsstring_eqb_eq.
Qed.

(** A result is the distance of a route that matches in one of the two
    directions. *)
Lemma findDistance_found (rs : list Route) (a b : jsstring) (d : number) :
  findDistance toLowerCase rs a b = Some d ->
  exists r, In r rs /\ distanceKm r = d
            /\ (matches toLowerCase (toLowerCase (trim a)) (toLowerCase (trim b)) r
                \/ matches toLowerCase (toLowerCase (trim b)) (toLowerCase (trim a)) r).
Proof.
  unfold findDistance.
  destruct (find (forward _ _ _) rs) as [r|] eqn:Hf.
  - intros [= <-]. apply find_some in Hf. destruct Hf as [Hin Hf].
    exists r. repeat split; trivial. left. now apply forward_matches.
  - destruct (find (reverse _ _ _) rs) as [r|] eqn:Hr; [|discriminate].
    intros [= <-]. apply find_some in Hr. destruct Hr as [Hin Hr].
    exists r. repeat split; trivial. right. now apply reverse_matches.
Qed.

(** There is no result exactly when no route matches. *)
Lemma findDistance_null (rs : list Route) (a b : jsstring) :
  findDistance toLowerCase rs a b = None <->
  forall r, In r rs ->
    ~ (matches toLowerCase (toLowerCase (trim a)) (toLowerCase (trim b)) r
       \/ matches toLowerCase (toLowerCase (trim b)) (toLowerCase (trim a)) r).
Proof.
  unfold findDistance. split.
  - destruct (find (forward _ _ _) rs) as [r|] eqn:Hf; [discriminate|].
    destruct (find (reverse _ _ _) rs) as [r|] eqn:Hr; [discriminate|].
    intros _ r Hin [H|H].
    + apply forward_matches in H.
      now rewrite (find_none _ _ Hf r Hin) in H.
    + apply reverse_matches in H.
      now rewrite (find_none _ _ Hr r Hin) in H.
  - intros Hno.
    destruct (find (forward _ _ _) rs) as [r|] eqn:Hf.
    { apply find_some in Hf. destruct Hf as [Hin Hf].
      elim (Hno r Hin). left. now apply forward_matches. }
    destruct (find (reverse _ _ _) rs) as [r|] eqn:Hr; trivial.
    apply find_some in Hr. destruct Hr as [Hin Hr].
    elim (Hno r Hin). right. now apply reverse_matches.
Qed.

(** The result depends on the normalised names only. *)
Lemma findDistance_normalised (rs : list Route) (a b a' b' : jsstring) :
  toLowerCase (trim a) = toLowerCase (trim a') ->
  toLowerCase (trim b) = toLowerCase (trim b') ->
  findDistance toLowerCase rs a b = findDistance toLowerCase rs a' b'.
Proof. unfold findDistance. now intros -> ->. Qed.

Hypothesis toLowerCase_latin1 : lowercases_latin1 toLowerCase.

Lemma key_eqb_eq (k k' : jsstring * jsstring) : key_eqb k k' = true <-> k = k'.
Proof.
  unfold key_eqb. rewrite andb_true_iff, !jsstring_eqb_eq.
  destruct k, k'; simpl. split; [intros [-> ->] | intros [= -> ->]]; auto.
Qed.

Lemma existsb_key_In (k : jsstring * jsstring) (ks : list (jsstring * jsstring)) :
  existsb (key_eqb k) ks = true <-> In k ks.
Proof.
  rewrite existsb_exists. split.
  - intros (x & Hx & Heq). apply key_eqb_eq in Heq. now subst.
  - intros Hk. exists k. split; [assumption | now apply key_eqb_eq].
Qed.

Lemma distinct_keys_NoDup (ks : list (jsstring * jsstring)) :
  distinct_keys ks = true -> NoDup ks.
Proof.
  induction ks as [|k ks IH]; simpl; [constructor|].
  rewrite andb_true_iff, negb_true_iff. intros [Hk Hks].
  constructor; [|now apply IH].
  intros Hin. apply existsb_key_In in Hin. congruence.
Qed.

Lemma NoDup_map_injective {A B : Type} (f : A -> B) (l : list A) (x y : A) :
  NoDup (map f l) -> In x l -> In y l -> f x = f y -> x = y.
Proof.
  induction l as [|z l IH]; simpl; [tauto|].
  intros Hnd Hx Hy Hxy. inversion Hnd as [|? ? Hnin Hnd']; subst.
  destruct Hx as [->|Hx], Hy as [->|Hy]; trivial.
  - elim Hnin. rewrite Hxy. now apply in_map.
  - elim Hnin. rewrite <- Hxy. now apply in_map.
  - now apply IH.
Qed.

Section Catalogue.
Variable rs : list Route.
Hypothesis rs_clean : forallb clean rs = true.
Hypothesis rs_unambiguous : unambiguous rs = true.

Lemma clean_route (r : Route) :
  In r rs ->
  toLowerCase (origin r) = fst (route_key r)
  /\ toLowerCase (destination r) = snd (route_key r)
  /\ trim (origin r) = origin r /\ trim (destination r) = destination r.
Proof.
  intros Hin. rewrite forallb_forall in rs_clean.
  specialize (rs_clean r Hin). unfold clean in rs_clean.
  rewrite !andb_true_iff, !jsstring_eqb_eq in rs_clean.
  destruct rs_clean as [[[Ho Hd] -> ] ->].
  repeat split; simpl; apply toLowerCase_latin1; now apply isLatin1b_spec.
Qed.

Lemma matches_key (x y : jsstring) (r : Route) :
  In r rs -> (matches toLowerCase x y r <-> route_key r = (x, y)).
Proof.
  intros Hin. destruct (clean_route r Hin) as (Ho & Hd & _).
  unfold matches. rewrite Ho, Hd. destruct (route_key r); simpl.
  split; [intros [-> ->] | intros [= -> ->]]; auto.
Qed.

Lemma same_key (r r' : Route) : In r rs -> In r' rs -> route_key r = route_key r' -> r = r'.
Proof.
  intros Hr Hr' Hk. unfold unambiguous in rs_unambiguous.
  apply andb_true_iff in rs_unambiguous. destruct rs_unambiguous as [Hd _].
  apply distinct_keys_NoDup in Hd.
  eapply NoDup_map_injective; eassumption.
Qed.

Lemma no_opposite_key (r r' : Route) :
  In r rs -> In r' rs -> route_key r' <> (snd (route_key r), fst (route_key r)).
Proof.
  intros Hr Hr' Hk. unfold unambiguous in rs_unambiguous.
  apply andb_true_iff in rs_unambiguous. destruct rs_unambiguous as [_ Hs].
  rewrite forallb_forall in Hs. specialize (Hs r Hr).
  apply negb_true_iff in Hs.
  assert (existsb (key_eqb (snd (route_key r), fst (route_key r))) (map route_key rs) = true) as He.
  { apply existsb_key_In. rewrite <- Hk. now apply in_map. }
  congruence.
Qed.

(** In a clean and unambiguous catalogue, the distance of a route is
    returned for the names that match it in either direction. *)
Lemma findDistance_matching (a b : jsstring) (r : Route) :
  In r rs ->
  matches toLowerCase (toLowerCase (trim a)) (toLowerCase (trim b)) r
  \/ matches toLowerCase (toLowerCase (trim b)) (toLowerCase (trim a)) r ->
  findDistance toLowerCase rs a b = Some (distanceKm r).
Proof.
  intros Hin Hm. unfold findDistance.
  set (x := toLowerCase (trim a)) in *. set (y := toLowerCase (trim b)) in *.
  destruct (find (forward toLowerCase x y) rs) as [r'|] eqn:Hf.
  - apply find_some in Hf. destruct Hf as [Hin' Hf].
    apply forward_matches, matches_key in Hf; trivial.
    destruct Hm as [Hm|Hm]; apply matches_key in Hm; trivial.
    + f_equal. f_equal. apply same_key; congruence.
    + elim (no_opposite_key r r' Hin Hin'). rewrite Hf, Hm. reflexivity.
  - destruct Hm as [Hm|Hm].
    { apply forward_matches in Hm. now rewrite (find_none _ _ Hf r Hin) in Hm. }
    destruct (find (reverse toLowerCase x y) rs) as [r'|] eqn:Hr.
    + apply find_some in Hr. destruct Hr as [Hin' Hr].
      apply reverse_matches, matches_key in Hr; trivial.
      apply matches_key in Hm; trivial.
      f_equal. f_equal. apply same_key; congruence.
    + apply reverse_matches in Hm. now rewrite (find_none _ _ Hr r Hin) in Hm.
Qed.

Lemma findDistance_both_ways (r : Route) :
  In r rs ->
  findDistance toLowerCase rs (origin r) (destination r) = Some (distanceKm r)
  /\ findDistance toLowerCase rs (destination r) (origin r) = Some (distanceKm r).
Proof.
  intros Hin. destruct (clean_route r Hin) as (_ & _ & Ho & Hd).
  split; apply findDistance_matching; trivial; rewrite Ho, Hd.
  - left. now split.
  - right. now split.
Qed.
End Catalogue.

Lemma routes_clean : forallb clean routes = true.
Proof. vm_compute. reflexivity. Qed.

Lemma routes_unambiguous : unambiguous routes = true.
Proof. vm_compute. reflexivity. Qed.

End FindDistanceFacts.

Section FindDistanceClaims.
Import RoutesDB.

Variable toLowerCase : jsstring -> jsstring.
Hypothesis toLowerCase_latin1 : lowercases_latin1 toLowerCase.

(** C2. For every route of the catalogue, [findDistance] returns its
    distance for its two names, in the stored order and in the opposite
    one. *)
Theorem findDistance_symmetric (r : Route) :
  In r routes ->
  findDistance toLowerCase routes (origin r) (destination r) = Some (distanceKm r)
  /\ findDistance toLowerCase routes (destination r) (origin r) = Some (distanceKm r).
Proof.
  apply (findDistance_both_ways toLowerCase toLowerCase_latin1 routes
           routes_clean routes_unambiguous).
Qed.

Lemma example_names_normalised :
  toLowerCase (trim (js " São Paulo, SP ")) = toLowerCase (trim (js "São Paulo, SP"))
  /\ toLowerCase (trim (js "rio de janeiro, rj"))
     = toLowerCase (trim (js "Rio de Janeiro, RJ")).
Proof.
  assert (isLatin1 (trim (js "rio de janeiro, rj"))) as H1
      by (apply isLatin1b_spec; vm_compute; reflexivity).
  assert (isLatin1 (trim (js "Rio de Janeiro, RJ"))) as H2
      by (apply isLatin1b_spec; vm_compute; reflexivity).
  split; [f_equal; vm_compute; reflexivity|].
  rewrite (toLowerCase_latin1 _ H1), (toLowerCase_latin1 _ H2).
  vm_compute. reflexivity.
Qed.

(** C7. [findDistance] compares the trimmed, lower-cased names it is
    given with the lower-cased names of the stored routes: it returns the
    distance of the route that matches them in the stored or in the
    opposite direction, and [null] when no route does; names that differ
    in case and in surrounding white space only give the same result. *)
Theorem findDistance_normalises_and_matches (a b : jsstring) :
  let x := toLowerCase (trim a) in
  let y := toLowerCase (trim b) in
  (forall r, In r routes ->
             matches toLowerCase x y r \/ matches toLowerCase y x r ->
             findDistance toLowerCase routes a b = Some (distanceKm r))
  /\ (findDistance toLowerCase routes a b = None <->
      forall r, In r routes ->
                ~ (matches toLowerCase x y r \/ matches toLowerCase y x r))
  /\ (forall a' b', toLowerCase (trim a') = x -> toLowerCase (trim b') = y ->
                    findDistance toLowerCase routes a' b'
                    = findDistance toLowerCase routes a b)
  /\ findDistance toLowerCase routes (js " São Paulo, SP ") (js "rio de janeiro, rj")
     = findDistance toLowerCase routes (js "São Paulo, SP") (js "Rio de Janeiro, RJ").
Proof.
  intros x y. split; [|split; [|split]].
  - intros r. apply (findDistance_matching toLowerCase toLowerCase_latin1 routes
                       routes_clean routes_unambiguous).
  - apply findDistance_null.
  - intros a' b' Ha Hb. now apply findDistance_normalised.
  - apply findDistance_normalised; apply example_names_normalised.
Qed.

End FindDistanceClaims.

Lemma map_lowerLatin1_latin1 : lowercases_latin1 (map lowerLatin1).
Proof. intros s _. reflexivity. Qed.

Lemma findDistance_symmetric_witness :
  In (RoutesDB.route "Belém, PA" "Manaus, AM" 1665) RoutesDB.routes
  /\ RoutesDB.findDistance (map lowerLatin1) RoutesDB.routes
       (js "Manaus, AM") (js "Belém, PA") = Some (of_Z 1665).
Proof.
  split; [vm_compute; tauto|].
  apply (findDistance_symmetric (map lowerLatin1) map_lowerLatin1_latin1
           (RoutesDB.route "Belém, PA" "Manaus, AM" 1665)).
  vm_compute. tauto.
Defined.

Lemma findDistance_normalises_and_matches_witness :
  lowercases_latin1 (map lowerLatin1)
  /\ RoutesDB.findDistance (map lowerLatin1) RoutesDB.routes
       (js " São Paulo, SP ") (js "rio de janeiro, rj")
     = RoutesDB.findDistance (map lowerLatin1) RoutesDB.routes
         (js "São Paulo, SP") (js "Rio de Janeiro, RJ").
Proof.
  split; [exact map_lowerLatin1_latin1|].
  apply (findDistance_normalises_and_matches (map lowerLatin1) map_lowerLatin1_latin1
           (js "x") (js "y")).
Defined.

(** ** Numbers: signs *)

Section SignFacts.

Lemma binary_round_aux_sign (s : bool) (m e : Z) (l : location) :
  sign (binary_round_aux prec emax s m e l) = s
  \/ binary_round_aux prec emax s m e l = S754_nan.
Proof.
  unfold binary_round_aux.
  destruct (shr_fexp prec emax m e l) as [mrs' e'].
  destruct (shr_fexp prec emax _ e' loc_Exact) as [mrs'' e''].
  destruct (shr_m mrs''); [now left| |now right].
  destruct (e'' <=? emax - prec); now left.
Qed.

Lemma binary_round_aux_nonneg (m e : Z) (l : location) :
  sign (binary_round_aux prec emax false m e l) = false.
Proof.
  destruct (binary_round_aux_sign false m e l) as [H|H]; [assumption|].
  now rewrite H.
Qed.

Lemma binary_round_nonneg (m : positive) (e : Z) :
  sign (binary_round prec emax false m e) = false.
Proof.
  unfold binary_round. destruct (shl_align m e _) as [mz ez].
  apply binary_round_aux_nonneg.
Qed.

(** A number that is not below zero: a zero of either sign, a positive
    number, or NaN. *)
Lemma sign_not_lt (x : number) : sign x = false -> JSNumber.ltb x zero = false.
Proof. destruct x as [[]|[]| |[] m e]; simpl; trivial; discriminate. Qed.

Lemma not_lt_finite (s : bool) (m : positive) (e : Z) :
  JSNumber.ltb (S754_finite s m e) zero = false -> s = false.
Proof. destruct s; simpl; trivial; discriminate. Qed.

Lemma not_lt_infinity (s : bool) :
  JSNumber.ltb (S754_infinity s) zero = false -> s = false.
Proof. destruct s; simpl; trivial; discriminate. Qed.

Lemma zero_not_lt (s : bool) : JSNumber.ltb (S754_zero s) zero = false.
Proof. reflexivity. Qed.

Lemma of_Z_not_lt (z : Z) : 0 <= z -> JSNumber.ltb (of_Z z) zero = false.
Proof.
  intros Hz. unfold of_Z, binary_normalize. destruct z; trivial.
  - apply sign_not_lt, binary_round_nonneg.
  - lia.
Qed.

Ltac not_lt_cases x y :=
  destruct x as [sx|sx| |sx mx ex], y as [sy|sy| |sy my ey];
  intros Hx Hy;
  repeat match goal with
    | H : JSNumber.ltb (S754_finite _ _ _) zero = false |- _ =>
        apply not_lt_finite in H; subst
    | H : JSNumber.ltb (S754_infinity _) zero = false |- _ =>
        apply not_lt_infinity in H; subst
    end;
  try (repeat match goal with b : bool |- _ => destruct b end; reflexivity).

Lemma mul_not_lt (x y : number) :
  JSNumber.ltb x zero = false -> JSNumber.ltb y zero = false ->
  JSNumber.ltb (mul x y) zero = false.
Proof.
  not_lt_cases x y. apply sign_not_lt, binary_round_aux_nonneg.
Qed.

Lemma div_not_lt (x : number) (my : positive) (ey : Z) :
  JSNumber.ltb x zero = false ->
  JSNumber.ltb (div x (S754_finite false my ey)) zero = false.
Proof.
  destruct x as [sx|sx| |sx mx ex]; intros Hx; trivial.
  - apply not_lt_infinity in Hx. now subst.
  - apply not_lt_finite in Hx. subst. simpl.
    destruct (SFdiv_core_binary prec emax _ _ _ _) as [[mz ez] lz].
    apply sign_not_lt, binary_round_aux_nonneg.
Qed.

Lemma add_not_lt (x y : number) :
  JSNumber.ltb x zero = false -> JSNumber.ltb y zero = false ->
  JSNumber.ltb (add x y) zero = false.
Proof.
  not_lt_cases x y. apply sign_not_lt, binary_round_nonneg.
Qed.

Lemma Math_round_not_lt (x : number) :
  JSNumber.ltb x zero = false -> JSNumber.ltb (Math_round x) zero = false.
Proof.
  destruct x as [sx|sx| |sx mx ex]; trivial. intros Hx.
  apply not_lt_finite in Hx. subst. simpl.
  destruct (0 <=? ex) eqn:He; trivial. apply Z.leb_gt in He.
  assert (0 <= Z.shiftr (2 * Z.pos mx + 2 ^ (- ex)) (1 - ex)) as Hn.
  { apply Z.shiftr_nonneg.
    assert (0 < 2 ^ (- ex)) by (apply Z.pow_pos_nonneg; lia). lia. }
  destruct (Z.shiftr _ _) eqn:Hs;
    [reflexivity | apply sign_not_lt, binary_round_nonneg | lia].
Qed.

(** On a number that is not below zero, [Math.round] rounds ties away
    from zero. *)
Lemma Math_round_half_away (x : number) :
  JSNumber.ltb x zero = false -> Math_round x = round_half_away x.
Proof.
  destruct x as [sx|sx| |sx mx ex]; trivial. intros Hx.
  apply not_lt_finite in Hx. now subst.
Qed.

Lemma leb_zero_not_lt (x : number) : leb zero x = true -> JSNumber.ltb x zero = false.
Proof. destruct x as [[]|[]| |[] m e]; simpl; trivial; discriminate. Qed.

End SignFacts.

(** ** Calculator.calculateEmission *)

Section EmissionFacts.
Import CONFIG Calculator.

Lemma known_mode (mode : jsstring) (factor : number) :
  own EMISSION_FACTORS mode = Some factor ->
  In (mode, factor) EMISSION_FACTORS.
Proof.
  unfold EMISSION_FACTORS. generalize (of_Z 0), (dec 12 2), (dec 20 2), (dec 15 2), (dec 89 3), (dec 96 2).
  intros f1 f2 f3 f4 f5 f6. simpl.
  repeat match goal with
         | |- context [JSString.eqb ?k mode] =>
             destruct (JSString.eqb k mode) eqn:?H;
             [apply jsstring_eqb_eq in H; subst mode; intros [= <-]; tauto |]; clear H
         end.
  discriminate.
Qed.

Lemma known_mode_factor (mode : jsstring) (factor : number) :
  own EMISSION_FACTORS mode = Some factor ->
  falsy mode = false /\ JSNumber.ltb factor zero = false /\ is_finite factor = true
  /\ sign factor = false.
Proof.
  intros H. apply known_mode in H.
  assert (forallb (fun kv => negb (falsy (fst kv))
                             && negb (JSNumber.ltb (snd kv) zero)
                             && is_finite (snd kv)
                             && negb (sign (snd kv))) EMISSION_FACTORS = true) as Hall
      by (vm_compute; reflexivity).
  rewrite forallb_forall in Hall. specialize (Hall _ H). simpl in Hall.
  rewrite !andb_true_iff, !negb_true_iff in Hall. tauto.
Qed.

(** With a distance that is not negative and a mode of the table, the
    result is the product rounded as the specification says. *)
Lemma calculateEmission_known (distanceKm : number) (mode : jsstring) (factor : number) :
  leb zero distanceKm = true ->
  own EMISSION_FACTORS mode = Some factor ->
  calculateEmission distanceKm mode = round2 (mul distanceKm factor).
Proof.
  intros Hd Hm. destruct (known_mode_factor _ _ Hm) as (Hf & Hs & _ & _).
  unfold calculateEmission, get, round2.
  rewrite (leb_zero_not_lt _ Hd), Hf, Hm. simpl.
  rewrite Math_round_half_away; trivial.
  apply mul_not_lt; [|now apply of_Z_not_lt].
  apply mul_not_lt; trivial. now apply leb_zero_not_lt.
Qed.

Lemma calculateEmission_bicycle (distanceKm : number) :
  is_finite distanceKm = true -> leb zero distanceKm = true ->
  strict_eq (calculateEmission distanceKm (js "bicycle")) zero = true.
Proof.
  destruct distanceKm as [[]|[]| |[] m e]; try discriminate; intros _ _;
    vm_compute; reflexivity.
Qed.

(** C1. For a finite distance that is not negative and a mode of the
    table of factors, [calculateEmission] is the product of the distance
    and the factor rounded to two decimals, ties away from zero; it is 12
    for 100 km by car, 8.9 for 100 km by bus and 0 by bicycle. *)
Theorem calculateEmission_rounds_product (distanceKm : number) :
  is_finite distanceKm = true -> leb zero distanceKm = true ->
  (forall mode factor,
      own EMISSION_FACTORS mode = Some factor ->
      calculateEmission distanceKm mode = round2 (mul distanceKm factor))
  /\ strict_eq (calculateEmission distanceKm (js "bicycle")) zero = true
  /\ calculateEmission (of_Z 100) (js "car") = of_Z 12
  /\ calculateEmission (of_Z 100) (js "bus") = dec 89 1.
Proof.
  intros Hfin Hd. split; [|split; [|split]].
  - intros mode factor. now apply calculateEmission_known.
  - now apply calculateEmission_bicycle.
  - vm_compute. reflexivity.
  - vm_compute. reflexivity.
Qed.

Lemma calculateEmission_rounds_product_witness :
  is_finite (of_Z 430) = true /\ leb zero (of_Z 430) = true
  /\ calculateEmission (of_Z 430) (js "plane") = round2 (mul (of_Z 430) (dec 20 2)).
Proof.
  split; [reflexivity|]. split; [reflexivity|].
  apply (calculateEmission_rounds_product (of_Z 430)); reflexivity.
Defined.

End EmissionFacts.

(** ** Calculator: credits, prices and savings *)

Section CreditFacts.
Import CONFIG Calculator.

Lemma round2_positive_divisor : n100 = S754_finite false 7036874417766400 (-46).
Proof. reflexivity. Qed.

Lemma two_positive_divisor : of_Z 2 = S754_finite false 4503599627370496 (-51).
Proof. reflexivity. Qed.

(** The code's rounding to two decimals is that of the specification
    on a number that is not below zero. *)
Lemma round2_native (x : number) :
  JSNumber.ltb x zero = false ->
  div (Math_round (mul x n100)) n100 = round2 x.
Proof.
  intros Hx. unfold round2. rewrite Math_round_half_away; trivial.
  apply mul_not_lt; trivial.
Qed.

Lemma round2_native_not_lt (x : number) :
  JSNumber.ltb x zero = false ->
  JSNumber.ltb (div (Math_round (mul x n100)) n100) zero = false.
Proof.
  intros Hx. rewrite round2_positive_divisor at 2. apply div_not_lt.
  apply Math_round_not_lt. apply mul_not_lt; trivial.
Qed.

Lemma estimateCreditPrice_nonneg (credits : number) :
  leb zero credits = true ->
  let p := estimateCreditPrice credits in
  min p = round2 (mul credits PRICE_MIN_BRL)
  /\ max p = round2 (mul credits PRICE_MAX_BRL)
  /\ average p = round2 (div (add (min p) (max p)) (of_Z 2)).
Proof.
  intros Hc. apply leb_zero_not_lt in Hc.
  unfold estimateCreditPrice. rewrite Hc. cbv zeta. cbn [min max average].
  assert (JSNumber.ltb (mul credits PRICE_MIN_BRL) zero = false) as Hmin
      by (apply mul_not_lt; trivial).
  assert (JSNumber.ltb (mul credits PRICE_MAX_BRL) zero = false) as Hmax
      by (apply mul_not_lt; trivial).
  split; [now apply round2_native|]. split; [now apply round2_native|].
  apply round2_native.
  rewrite two_positive_divisor. apply div_not_lt.
  apply add_not_lt; now apply round2_native_not_lt.
Qed.

Lemma calculateCarbonCredits_nonneg (emissionKg : number) :
  leb zero emissionKg = true ->
  calculateCarbonCredits emissionKg = round4 (div emissionKg KG_PER_CREDIT).
Proof.
  intros He. apply leb_zero_not_lt in He.
  unfold calculateCarbonCredits, round4. rewrite He. cbv zeta.
  rewrite Math_round_half_away; trivial.
  apply mul_not_lt; trivial.
  change KG_PER_CREDIT with (S754_finite false 8796093022208000 (-43)).
  now apply div_not_lt.
Qed.

(** C8. For credits that are not negative, the minimal and the maximal
    price are the credits times 50 and times 150 rounded to two
    decimals, and the average is the rounded half of the sum of these two
    rounded prices; for an emission that is not negative, the credits are
    the emission divided by 1000 rounded to four decimals; 1250 kg are
    1.25 credits, which cost between 62.5 and 187.5, 125 on average. *)
Theorem credits_and_price_rounded (x : number) :
  leb zero x = true ->
  (let p := estimateCreditPrice x in
   min p = round2 (mul x (of_Z 50))
   /\ max p = round2 (mul x (of_Z 150))
   /\ average p = round2 (div (add (min p) (max p)) (of_Z 2)))
  /\ calculateCarbonCredits x = round4 (div x (of_Z 1000))
  /\ calculateCarbonCredits (of_Z 1250) = dec 125 2
  /\ estimateCreditPrice (dec 125 2)
     = {| min := dec 625 1; max := dec 1875 1; average := of_Z 125 |}.
Proof.
  intros Hx. split; [now apply estimateCreditPrice_nonneg|].
  split; [now apply calculateCarbonCredits_nonneg|].
  split; vm_compute; reflexivity.
Qed.

Lemma credits_and_price_rounded_witness :
  leb zero (dec 89 1) = true
  /\ calculateCarbonCredits (dec 89 1) = round4 (div (dec 89 1) (of_Z 1000)).
Proof.
  split; [reflexivity|].
  apply (credits_and_price_rounded (dec 89 1)). reflexivity.
Defined.

End CreditFacts.

(** ** Calculator: the guards on the input *)

Section GuardFacts.
Import CONFIG Calculator.

Lemma calculateEmission_negative (distanceKm : number) (mode : jsstring) :
  JSNumber.ltb distanceKm zero = true -> calculateEmission distanceKm mode = zero.
Proof. intros H. unfold calculateEmission. now rewrite H. Qed.

Lemma calculateEmission_undefined (distanceKm : number) (mode : jsstring) :
  get EMISSION_FACTORS mode = Undefined -> calculateEmission distanceKm mode = zero.
Proof.
  intros H. unfold calculateEmission. rewrite H.
  now destruct (_ || _).
Qed.

Lemma calculateCarbonCredits_negative (emissionKg : number) :
  JSNumber.ltb emissionKg zero = true -> calculateCarbonCredits emissionKg = zero.
Proof. intros H. unfold calculateCarbonCredits. now rewrite H. Qed.

Lemma estimateCreditPrice_negative (credits : number) :
  JSNumber.ltb credits zero = true ->
  estimateCreditPrice credits = {| min := zero; max := zero; average := zero |}.
Proof. intros H. unfold estimateCreditPrice. now rewrite H. Qed.

Lemma calculateSavings_zero_baseline (emission baselineEmission : number) :
  strict_eq baselineEmission zero = true ->
  calculateSavings emission baselineEmission = {| savedKg := zero; percentage := zero |}.
Proof. intros H. unfold calculateSavings. now rewrite H. Qed.

(** C6. The name [toString] is not a mode of the table of factors, yet
    [calculateEmission] does not return 0 for it: the lookup finds the
    function every object inherits, which is not [undefined], and the
    product with it is NaN. *)
Theorem calculateEmission_inherited_name :
  own EMISSION_FACTORS (js "toString") = None
  /\ calculateEmission (of_Z 100) (js "toString") = NaN
  /\ strict_eq (calculateEmission (of_Z 100) (js "toString")) zero = false.
Proof. repeat split. Qed.

End GuardFacts.

(** ** Calculator.calculateAllModes: the guard on the baseline *)

Section BaselineFacts.
Import CONFIG Calculator.

Lemma calculateAllModes_guard (distanceKm : number) :
  strict_eq (calculateEmission distanceKm (js "car")) zero = true ->
  calculateAllModes distanceKm = [].
Proof. intros H. unfold calculateAllModes. now rewrite H. Qed.

Lemma calculateEmission_zero_distance (distanceKm : number) (mode : jsstring) :
  strict_eq distanceKm zero = true ->
  own EMISSION_FACTORS mode <> None ->
  strict_eq (calculateEmission distanceKm mode) zero = true.
Proof.
  intros Hd Hm. destruct (own EMISSION_FACTORS mode) as [factor|] eqn:Hf; [|congruence].
  destruct (known_mode_factor _ _ Hf) as (Hfalsy & Hsign & Hfin & _).
  unfold calculateEmission, get. rewrite Hfalsy, Hf, orb_false_r.
  destruct distanceKm as [s|[]| |[] m e]; try discriminate Hd.
  destruct factor as [sf| | |sf mf ef]; try discriminate; reflexivity.
Qed.

End BaselineFacts.

(** ** Numbers: the shifts and the rounding of [SpecFloat] *)

Section ShiftFacts.

Lemma digits2_pos_size (p : positive) : digits2_pos p = Pos.size p.
Proof. induction p; simpl; congruence. Qed.

Lemma Zdigits2_log2 (V : Z) : 0 < V -> Zdigits2 V = Z.succ (Z.log2 V).
Proof.
  destruct V as [|p|p]; try lia. intros _. simpl.
  rewrite digits2_pos_size. destruct p; simpl; lia.
Qed.

Lemma Zdigits2_bounds (V : Z) :
  0 < V -> 2 ^ (Zdigits2 V - 1) <= V < 2 ^ Zdigits2 V.
Proof.
  intros HV. rewrite (Zdigits2_log2 V HV).
  replace (Z.succ (Z.log2 V) - 1) with (Z.log2 V) by lia.
  now apply Z.log2_spec.
Qed.

Lemma Zdigits2_pos (V : Z) : 0 < V -> 0 < Zdigits2 V.
Proof.
  intros HV. rewrite (Zdigits2_log2 V HV). pose proof (Z.log2_nonneg V). lia.
Qed.

Lemma Zdigits2_mono (V W : Z) : 0 < V -> V <= W -> Zdigits2 V <= Zdigits2 W.
Proof.
  intros HV HW. rewrite !Zdigits2_log2 by lia.
  pose proof (Z.log2_le_mono V W HW). lia.
Qed.

Lemma Zdigits2_mul_pow2 (V j : Z) :
  0 < V -> 0 <= j -> Zdigits2 (V * 2 ^ j) = Zdigits2 V + j.
Proof.
  intros HV Hj.
  assert (0 < 2 ^ j) by (apply Z.pow_pos_nonneg; lia).
  rewrite !Zdigits2_log2 by nia.
  rewrite Z.log2_mul_pow2 by lia. lia.
Qed.

Lemma Zdigits2_lt_pow2 (V d : Z) : 0 <= d -> 0 <= V < 2 ^ d -> Zdigits2 V <= d.
Proof.
  intros Hd [H0 HV]. destruct (Z.eq_dec V 0) as [->|Hn]; [simpl; lia|].
  rewrite Zdigits2_log2 by lia.
  assert (Z.log2 V < d); [|lia].
  apply Z.log2_lt_pow2; lia.
Qed.

Lemma iter_pos_nat {A : Type} (f : A -> A) (p : positive) (x : A) :
  iter_pos f p x = Nat.iter (Pos.to_nat p) f x.
Proof.
  revert x. induction p as [p IH|p IH|]; intros x; cbn [iter_pos].
  - rewrite !IH, Pos2Nat.inj_xI, <- Nat.iter_add.
    replace (S (2 * Pos.to_nat p)) with (S (Pos.to_nat p + Pos.to_nat p)) by lia.
    now rewrite Nat.iter_succ_r.
  - rewrite !IH, Pos2Nat.inj_xO, <- Nat.iter_add.
    f_equal. lia.
  - reflexivity.
Qed.

Lemma shr_1_nonneg (m : Z) (r s : bool) :
  0 <= m ->
  shr_1 (Build_shr_record m r s) = Build_shr_record (m / 2) (Z.odd m) (r || s).
Proof.
  intros Hm. destruct m as [|p|p]; [reflexivity| |lia].
  destruct p as [p|p|]; simpl shr_1.
  - f_equal. rewrite Pos2Z.inj_xI. symmetry.
    rewrite Z.mul_comm, Z.add_comm, Z.div_add by lia. reflexivity.
  - f_equal. rewrite Pos2Z.inj_xO. symmetry.
    rewrite Z.mul_comm, Z.div_mul by lia. reflexivity.
  - reflexivity.
Qed.

(** The record after [n] shifts of a mantissa [m] that is not negative:
    the quotient by [2^n], and the position of the remainder with respect
    to the half of [2^n]. *)
Lemma shr_iter (n : nat) (m : Z) :
  0 <= m ->
  Nat.iter n shr_1 (Build_shr_record m false false)
  = Build_shr_record
      (m / 2 ^ Z.of_nat n)
      (2 ^ Z.of_nat n <=? 2 * (m mod 2 ^ Z.of_nat n))
      (negb (m mod 2 ^ Z.of_nat n =? 0)
       && negb (2 * (m mod 2 ^ Z.of_nat n) =? 2 ^ Z.of_nat n)).
Proof.
  intros Hm. induction n as [|n IH].
  - simpl. rewrite Z.div_1_r, Z.mod_1_r. reflexivity.
  - rewrite Nat.iter_succ, IH. clear IH.
    rewrite Nat2Z.inj_succ, Z.pow_succ_r by lia.
    set (P := 2 ^ Z.of_nat n).
    assert (0 < P) as HP by (apply Z.pow_pos_nonneg; lia).
    rewrite shr_1_nonneg by (apply Z.div_pos; lia).
    assert (m mod (P * 2) = m mod P + P * ((m / P) mod 2)) as Hrem
        by (apply Z.rem_mul_r; lia).
    rewrite (Z.mul_comm 2 P), Hrem.
    pose proof (Z.mod_pos_bound m P HP) as Hr.
    pose proof (Z.mod_pos_bound (m / P) 2 ltac:(lia)) as Hb.
    rewrite Z.div_div by lia.
    rewrite Zodd_mod.
    set (r := m mod P) in *. set (b := (m / P) mod 2) in *.
    clearbody r b P.
    assert (b = 0 \/ b = 1) as [-> | ->] by lia;
      rewrite ?Z.mul_0_r, ?Z.mul_1_r, ?Z.add_0_r; f_equal.
    + destruct (Z.leb_spec (P * 2) (2 * r)); trivial; lia.
    + destruct (Z.leb_spec P (2 * r)), (Z.eqb_spec r 0), (Z.eqb_spec (2 * r) P),
        (Z.eqb_spec (2 * r) (P * 2)); simpl; trivial; lia.
    + destruct (Z.leb_spec (P * 2) (2 * (r + P))); trivial; lia.
    + destruct (Z.leb_spec P (2 * r)), (Z.eqb_spec r 0), (Z.eqb_spec (2 * r) P),
        (Z.eqb_spec (r + P) 0), (Z.eqb_spec (2 * (r + P)) (P * 2));
        simpl; trivial; lia.
Qed.

Lemma round_shr_iter (n : nat) (m : Z) :
  0 <= m ->
  let mrs := Nat.iter n shr_1 (Build_shr_record m false false) in
  round_nearest_even (shr_m mrs) (loc_of_shr_record mrs) = rne m (Z.of_nat n).
Proof.
  intros Hm. cbv zeta. rewrite shr_iter by assumption. unfold rne.
  set (P := 2 ^ Z.of_nat n).
  assert (0 < P) as HP by (apply Z.pow_pos_nonneg; lia).
  pose proof (Z.mod_pos_bound m P HP) as Hr.
  set (r := m mod P) in *. simpl shr_m.
  destruct (Z.leb_spec P (2 * r)), (Z.eqb_spec r 0), (Z.eqb_spec (2 * r) P),
    (Z.ltb_spec (2 * r) P); simpl; trivial; lia.
Qed.

(** A shift to the exponent of the format, of a mantissa with no
    rounding pending. *)
Lemma shr_fexp_exact (m e : Z) :
  0 <= m ->
  let k := Z.max 0 (fexp prec emax (Zdigits2 m + e) - e) in
  shr_fexp prec emax m e loc_Exact
  = (Nat.iter (Z.to_nat k) shr_1 (Build_shr_record m false false), e + k).
Proof.
  intros Hm k. unfold shr_fexp, shr. simpl shr_record_of_loc. subst k.
  destruct (fexp prec emax (Zdigits2 m + e) - e) as [|p|p] eqn:Hn.
  - cbn [Z.max Z.compare Z.to_nat Nat.iter]. now rewrite Z.add_0_r.
  - rewrite iter_pos_nat. rewrite Z.max_r by lia. reflexivity.
  - rewrite Z.max_l by lia. cbn [Z.to_nat Nat.iter]. now rewrite Z.add_0_r.
Qed.

Lemma rne_nonneg (V K : Z) : 0 <= V -> 0 <= rne V K.
Proof.
  intros HV. unfold rne.
  assert (0 <= V / 2 ^ K) as Ha.
  { destruct (Z.lt_ge_cases K 0) as [HK|HK].
    - rewrite Z.pow_neg_r by lia. now rewrite Z.div_0_r.
    - apply Z.div_pos; [lia|]. apply Z.pow_pos_nonneg; lia. }
  destruct (_ <? _); [lia|]. destruct (_ =? _); [destruct (Z.even _)|]; lia.
Qed.

(** [binary_round_aux] on an exact positive mantissa, in integers. *)
Lemma binary_round_aux_exact (s : bool) (m : positive) (e : Z) :
  let k := Z.max 0 (fexp prec emax (Zdigits2 (Zpos m) + e) - e) in
  let q := rne (Zpos m) k in
  let e1 := e + k in
  let k2 := Z.max 0 (fexp prec emax (Zdigits2 q + e1) - e1) in
  binary_round_aux prec emax s (Zpos m) e loc_Exact
  = match q / 2 ^ k2 with
    | Z0 => S754_zero s
    | Zpos m' => if e1 + k2 <=? emax - prec then S754_finite s m' (e1 + k2)
                 else S754_infinity s
    | Zneg _ => S754_nan
    end.
Proof.
  intros k q e1 k2. unfold binary_round_aux.
  rewrite shr_fexp_exact by lia. fold k. fold e1.
  rewrite round_shr_iter by lia.
  rewrite Z2Nat.id by (subst k; lia). fold q.
  assert (0 <= q) as Hq by (apply rne_nonneg; lia).
  rewrite shr_fexp_exact by assumption. fold k2.
  rewrite shr_iter by assumption. simpl shr_m.
  rewrite Z2Nat.id by (subst k2; lia). reflexivity.
Qed.

End ShiftFacts.

(** ** Numbers: the results of the format *)

Section FormatFacts.

Lemma emin_value : emin prec emax = -1074.
Proof. reflexivity. Qed.

Lemma fexp_ge_emin (x : Z) : -1074 <= fexp prec emax x.
Proof. unfold fexp. rewrite emin_value. lia. Qed.

Lemma fexp_mono (x y : Z) : x <= y -> fexp prec emax x <= fexp prec emax y.
Proof. unfold fexp, prec. lia. Qed.

Lemma fexp_spec (x : Z) : fexp prec emax x = Z.max (x - 53) (-1074).
Proof. reflexivity. Qed.

Lemma shr_iter_m (n : nat) (m : Z) (r s : bool) :
  0 <= m ->
  shr_m (Nat.iter n shr_1 (Build_shr_record m r s)) = m / 2 ^ Z.of_nat n.
Proof.
  intros Hm. induction n as [|n IH].
  - simpl. now rewrite Z.div_1_r.
  - rewrite Nat.iter_succ.
    destruct (Nat.iter n shr_1 _) as [m' r' s'] eqn:Hit. simpl in IH. subst m'.
    assert (0 < 2 ^ Z.of_nat n) by (apply Z.pow_pos_nonneg; lia).
    rewrite shr_1_nonneg by (apply Z.div_pos; lia). cbn [shr_m].
    rewrite Z.div_div, Nat2Z.inj_succ, Z.pow_succ_r by lia.
    f_equal. lia.
Qed.

(** A shift to the exponent of the format, whatever is pending. *)
Lemma shr_fexp_m (m e : Z) (l : location) :
  0 <= m ->
  let k := Z.max 0 (fexp prec emax (Zdigits2 m + e) - e) in
  shr_m (fst (shr_fexp prec emax m e l)) = m / 2 ^ k
  /\ snd (shr_fexp prec emax m e l) = e + k.
Proof.
  intros Hm k. unfold shr_fexp, shr. subst k.
  assert (exists r s, shr_record_of_loc m l = Build_shr_record m r s) as (r & s & ->).
  { destruct l as [|[]]; simpl; eauto. }
  destruct (fexp prec emax (Zdigits2 m + e) - e) as [|p|p] eqn:Hn.
  - simpl. rewrite Z.div_1_r. lia.
  - rewrite Z.max_r by lia. simpl fst. simpl snd.
    rewrite iter_pos_nat, shr_iter_m by assumption.
    rewrite positive_nat_Z. split; reflexivity.
  - rewrite Z.max_l by lia. simpl. rewrite Z.div_1_r. lia.
Qed.

Lemma round_nearest_even_cases (m : Z) (l : location) :
  round_nearest_even m l = m \/ round_nearest_even m l = m + 1.
Proof.
  destruct l as [|[]]; simpl; auto. destruct (Z.even m); auto.
Qed.

Lemma div_pow2_nonneg (m k : Z) : 0 <= m -> 0 <= m / 2 ^ k.
Proof.
  intros Hm. destruct (Z.lt_ge_cases k 0) as [Hk|Hk].
  - rewrite Z.pow_neg_r by lia. now rewrite Z.div_0_r.
  - apply Z.div_pos; [lia|]. apply Z.pow_pos_nonneg; lia.
Qed.

(** The digits lost in a shift. *)
Lemma Zdigits2_div_pow2 (m k : Z) :
  0 <= k -> 0 < m / 2 ^ k -> Zdigits2 (m / 2 ^ k) = Zdigits2 m - k.
Proof.
  intros Hk Hq.
  assert (0 < 2 ^ k) as HP by (apply Z.pow_pos_nonneg; lia).
  assert (0 < m) as Hm.
  { destruct (Z.lt_ge_cases 0 m) as [|Hle]; trivial.
    assert (m / 2 ^ k <= 0); [|lia].
    apply Z.div_le_upper_bound; lia. }
  rewrite !Zdigits2_log2 by lia.
  rewrite <- Z.shiftr_div_pow2 in * by lia.
  rewrite Z.log2_shiftr by lia.
  assert (k <= Z.log2 m); [|lia].
  destruct (Z.lt_ge_cases (Z.log2 m) k) as [Hlt|]; trivial.
  rewrite Z.shiftr_eq_0 in Hq by lia. lia.
Qed.

Lemma bounded_canonical (m : positive) (e : Z) :
  bounded prec emax m e = true
  <-> fexp prec emax (Zdigits2 (Zpos m) + e) = e /\ e <= emax - prec.
Proof.
  unfold bounded, canonical_mantissa. simpl Zdigits2.
  rewrite andb_true_iff, Z.eqb_eq, Z.leb_le. reflexivity.
Qed.

(** [binary_round_aux] returns a number of the format when the mantissa
    is not negative and the exponent is not above that of the format. *)
Lemma binary_round_aux_rounded (s : bool) (m e : Z) (l : location) :
  0 <= m -> e <= fexp prec emax (Zdigits2 m + e) ->
  rounded s (binary_round_aux prec emax s m e l).
Proof.
  intros Hm He. unfold binary_round_aux.
  destruct (shr_fexp_m m e l Hm) as [Ha He1].
  destruct (shr_fexp prec emax m e l) as [mrs' e1]. simpl in Ha, He1.
  set (k := Z.max 0 (fexp prec emax (Zdigits2 m + e) - e)) in *.
  assert (k = fexp prec emax (Zdigits2 m + e) - e) as Hk by (unfold k; lia).
  clearbody k.
  assert (e1 = fexp prec emax (Zdigits2 m + e)) as He1' by lia.
  set (q := round_nearest_even (shr_m mrs') (loc_of_shr_record mrs')).
  assert (0 <= shr_m mrs') as Ha0 by (rewrite Ha; now apply div_pow2_nonneg).
  assert (q = shr_m mrs' \/ q = shr_m mrs' + 1) as Hq
      by apply round_nearest_even_cases.
  assert (0 <= q) as Hq0 by lia.
  destruct (shr_fexp_m q e1 loc_Exact Hq0) as [Ha2 He2].
  destruct (shr_fexp prec emax q e1 loc_Exact) as [mrs'' e2]. simpl in Ha2, He2.
  set (k2 := Z.max 0 (fexp prec emax (Zdigits2 q + e1) - e1)) in *.
  assert (k2 = Z.max 0 (fexp prec emax (Zdigits2 q + e1) - e1)) as Hk2 by reflexivity.
  clearbody k2 q.
  destruct (shr_m mrs'') as [|m2|m2] eqn:Hm2.
  - now left.
  - destruct (e2 <=? emax - prec) eqn:Hle; [|right; now left].
    right. right. exists m2, e2. split; trivial.
    apply bounded_canonical. apply Z.leb_le in Hle. split; trivial.
    (* the exponent of the first shift is below that of the rounded mantissa *)
    assert (e1 <= fexp prec emax (Zdigits2 q + e1)) as Hq1.
    { rewrite He1'. destruct (Z.eq_dec (shr_m mrs') 0) as [Hz|Hnz].
      - assert (0 < q) as Hqp.
        { destruct (Z.eq_dec q 0) as [Hq00|]; [|lia].
          rewrite Hq00 in Ha2. rewrite Z.div_0_l in Ha2; [lia|].
          apply Z.pow_nonzero; lia. }
        assert (q = 1) by lia.
        assert (m < 2 ^ k) as Hlt.
        { rewrite Hz in Ha. symmetry in Ha.
          apply Z.div_small_iff in Ha; [lia|]. apply Z.pow_nonzero; lia. }
        assert (Zdigits2 m <= k) as Hd by (apply Zdigits2_lt_pow2; lia).
        assert (Zdigits2 q = 1) as Hdq by (replace q with 1 by lia; reflexivity).
        rewrite Hdq. rewrite !fexp_spec in *. lia.
      - assert (0 < shr_m mrs') as Hap by lia.
        rewrite Ha in Hap.
        pose proof (Zdigits2_div_pow2 m k ltac:(lia) Hap) as Hda.
        rewrite <- Ha in Hda, Hap.
        assert (Zdigits2 (shr_m mrs') <= Zdigits2 q) by (apply Zdigits2_mono; lia).
        apply fexp_mono. lia. }
    destruct (Z.eq_dec k2 0) as [Hk0|Hkn].
    + rewrite Hk0, Z.pow_0_r, Z.div_1_r in Ha2. rewrite Ha2.
      replace e2 with e1 by lia. lia.
    + assert (0 < q / 2 ^ k2) as Hqq by lia.
      pose proof (Zdigits2_div_pow2 q k2 ltac:(lia) Hqq) as Hd2.
      rewrite <- Ha2 in Hd2. rewrite Hd2.
      replace (Zdigits2 q - k2 + e2) with (Zdigits2 q + e1) by lia. lia.
  - pose proof (div_pow2_nonneg q k2 Hq0). lia.
Qed.

End FormatFacts.

(** ** Numbers: the operations return numbers of the format *)

Section RoundedFacts.

Lemma shl_align_value (m : positive) (e e' : Z) :
  Zpos (fst (shl_align m e e')) = Zpos m * 2 ^ (e - snd (shl_align m e e'))
  /\ snd (shl_align m e e') = Z.min e e'.
Proof.
  unfold shl_align. destruct (e' - e) as [|d|d] eqn:Hd; simpl fst; simpl snd.
  - rewrite Z.sub_diag. simpl. lia.
  - rewrite Z.sub_diag. simpl. lia.
  - change (Pos.iter xO m d) with (shift_pos d m).
    rewrite shift_pos_correct. replace (e - e') with (Zpos d) by lia.
    change (Z.pow_pos 2 d) with (2 ^ Zpos d). lia.
Qed.

Lemma binary_round_rounded (s : bool) (m : positive) (e : Z) :
  rounded s (binary_round prec emax s m e).
Proof.
  unfold binary_round.
  destruct (shl_align_value m e (fexp prec emax (Zpos (digits2_pos m) + e)))
    as [Hv He].
  destruct (shl_align m e _) as [mz ez]. cbn [fst snd] in Hv, He.
  apply binary_round_aux_rounded; [lia|].
  assert (0 <= e - ez) by lia.
  assert (Zdigits2 (Zpos mz) = Zdigits2 (Zpos m) + (e - ez)) as Hd
      by (rewrite Hv; apply Zdigits2_mul_pow2; lia).
  rewrite Hd. change (Zdigits2 (Zpos m)) with (Zpos (digits2_pos m)).
  replace (Zpos (digits2_pos m) + (e - ez) + ez) with (Zpos (digits2_pos m) + e) by lia.
  lia.
Qed.

Lemma of_Z_rounded (z : Z) : rounded (z <? 0) (of_Z z).
Proof.
  unfold of_Z, binary_normalize. destruct z; simpl.
  - now left.
  - apply binary_round_rounded.
  - apply binary_round_rounded.
Qed.

(** The quotient computed by the division has the digits the format
    needs. *)
Lemma SFdiv_core_binary_digits (m1 m2 : positive) (e1 e2 : Z) :
  let '(q, e', l) := SFdiv_core_binary prec emax (Zpos m1) e1 (Zpos m2) e2 in
  0 <= q /\ e' <= fexp prec emax (Zdigits2 q + e').
Proof.
  unfold SFdiv_core_binary.
  set (d1 := Zdigits2 (Zpos m1)). set (d2 := Zdigits2 (Zpos m2)).
  set (F := fexp prec emax (d1 + e1 - (d2 + e2))).
  set (e' := Z.min F (e1 - e2)).
  set (s := e1 - e2 - e').
  assert (0 <= s) as Hs by (unfold s, e'; lia).
  set (m' := match s with Zpos _ => Z.shiftl (Zpos m1) s | Z0 => Zpos m1 | Zneg _ => 0 end).
  assert (m' = Zpos m1 * 2 ^ s) as Hm'.
  { unfold m'. destruct s as [|p|p] eqn:Hsp; [simpl; lia| |lia].
    now rewrite Z.shiftl_mul_pow2 by lia. }
  clearbody m'.
  pose proof (Z_div_mod m' (Zpos m2) ltac:(lia)) as Hdiv.
  destruct (Z.div_eucl m' (Zpos m2)) as [q r]. destruct Hdiv as [Hq Hr].
  assert (0 < 2 ^ s) as Hps by (apply Z.pow_pos_nonneg; lia).
  assert (0 <= q) as Hq0 by nia.
  split; trivial.
  assert (d1 + e1 - (d2 + e2) <= Zdigits2 q + e'); [|pose proof (fexp_mono _ _ H); unfold e' in *; lia].
  assert (d1 + s - d2 <= Zdigits2 q); [|unfold s in *; lia].
  destruct (Z.le_gt_cases (d1 + s - d2) 0) as [Hle|Hgt].
  { destruct (Z.eq_dec q 0) as [->|]; [change (Zdigits2 0) with 0; lia|].
    pose proof (Zdigits2_pos q ltac:(lia)). lia. }
  set (t := d1 + s - 1 - d2). assert (0 <= t) as Ht by (unfold t; lia).
  pose proof (Zdigits2_bounds (Zpos m1) ltac:(lia)) as [Hb1 _].
  pose proof (Zdigits2_bounds (Zpos m2) ltac:(lia)) as [_ Hb2].
  fold d1 in Hb1. fold d2 in Hb2.
  pose proof (Zdigits2_pos (Zpos m1) ltac:(lia)) as Hd1. fold d1 in Hd1.
  pose proof (Zdigits2_pos (Zpos m2) ltac:(lia)) as Hd2. fold d2 in Hd2.
  assert (2 ^ (d1 - 1) * 2 ^ s = 2 ^ t * 2 ^ d2) as Hpow.
  { rewrite <- !Z.pow_add_r by lia. f_equal. unfold t. lia. }
  assert (0 < 2 ^ t) as Hpt by (apply Z.pow_pos_nonneg; lia).
  assert (2 ^ t <= q) as Hqt by nia.
  assert (0 < q) by lia.
  rewrite Zdigits2_log2 by lia.
  apply Z.log2_le_pow2 in Hqt; [|lia]. unfold t in Hqt. lia.
Qed.

Lemma div_rounded (sx sy : bool) (mx my : positive) (ex ey : Z) :
  rounded (xorb sx sy) (div (S754_finite sx mx ex) (S754_finite sy my ey)).
Proof.
  unfold div. simpl.
  pose proof (SFdiv_core_binary_digits mx my ex ey) as H.
  destruct (SFdiv_core_binary prec emax _ _ _ _) as [[q e'] l].
  destruct H as [Hq He]. now apply binary_round_aux_rounded.
Qed.

(** A product of two positive mantissas is rounded to a zero, an
    infinity or a finite number with the sign given. *)
Lemma binary_round_aux_sign_kept (s : bool) (m e : Z) (l : location) :
  0 <= m ->
  let r := binary_round_aux prec emax s m e l in
  r = S754_zero s \/ r = S754_infinity s \/ exists m' e', r = S754_finite s m' e'.
Proof.
  intros Hm. cbv zeta. unfold binary_round_aux.
  destruct (shr_fexp_m m e l Hm) as [Ha _].
  destruct (shr_fexp prec emax m e l) as [mrs' e1]. simpl in Ha.
  set (q := round_nearest_even (shr_m mrs') (loc_of_shr_record mrs')).
  assert (0 <= shr_m mrs') as Ha0 by (rewrite Ha; now apply div_pow2_nonneg).
  assert (q = shr_m mrs' \/ q = shr_m mrs' + 1) as Hq
      by apply round_nearest_even_cases.
  assert (0 <= q) as Hq0 by lia.
  destruct (shr_fexp_m q e1 loc_Exact Hq0) as [Ha2 _].
  destruct (shr_fexp prec emax q e1 loc_Exact) as [mrs'' e2]. simpl in Ha2.
  pose proof (div_pow2_nonneg q (Z.max 0 (fexp prec emax (Zdigits2 q + e1) - e1)) Hq0).
  destruct (shr_m mrs'') as [|m2|m2]; [now left| |lia].
  destruct (e2 <=? emax - prec); [right; right; eauto | right; now left].
Qed.

End RoundedFacts.

(** ** Numbers: the order *)

Section OrderFacts.

Lemma bounded_digits (m : positive) (e : Z) :
  bounded prec emax m e = true ->
  Zdigits2 (Zpos m) <= 53 /\ -1074 <= e <= 971
  /\ (e = -1074 \/ Zdigits2 (Zpos m) = 53).
Proof.
  intros H. apply bounded_canonical in H. destruct H as [Hc He].
  rewrite fexp_spec in Hc. unfold emax, prec in He. lia.
Qed.

Lemma pow2_split (a b : Z) : 0 <= a -> 0 <= b -> 2 ^ (a + b) = 2 ^ a * 2 ^ b.
Proof. intros. now apply Z.pow_add_r. Qed.

(** On numbers of the format the comparison of [SpecFloat] compares the
    values. *)
Lemma SFcompare_scaled (m1 m2 : positive) (e1 e2 c : Z) :
  bounded prec emax m1 e1 = true -> bounded prec emax m2 e2 = true ->
  c <= e1 -> c <= e2 ->
  SFcompare (S754_finite false m1 e1) (S754_finite false m2 e2)
  = Some (Zpos m1 * 2 ^ (e1 - c) ?= Zpos m2 * 2 ^ (e2 - c)).
Proof.
  intros H1 H2 Hc1 Hc2.
  destruct (bounded_digits _ _ H1) as (Hd1 & He1 & Hn1).
  destruct (bounded_digits _ _ H2) as (Hd2 & He2 & Hn2).
  pose proof (Zdigits2_bounds (Zpos m1) ltac:(lia)) as [Hl1 Hu1].
  pose proof (Zdigits2_bounds (Zpos m2) ltac:(lia)) as [Hl2 Hu2].
  assert (Zpos m1 < 2 ^ 53) as Hm1.
  { eapply Z.lt_le_trans; [exact Hu1|]. apply Z.pow_le_mono_r; lia. }
  assert (Zpos m2 < 2 ^ 53) as Hm2.
  { eapply Z.lt_le_trans; [exact Hu2|]. apply Z.pow_le_mono_r; lia. }
  simpl SFcompare. f_equal.
  destruct (Z.compare_spec e1 e2) as [Heq|Hlt|Hgt].
  - subst e2.
    assert (0 < 2 ^ (e1 - c)) by (apply Z.pow_pos_nonneg; lia).
    rewrite <- Zmult_compare_compat_r by lia. reflexivity.
  - symmetry. apply Z.compare_lt_iff.
    assert (Zdigits2 (Zpos m2) = 53) as Hd by lia. rewrite Hd in Hl2.
    replace (e2 - c) with ((e2 - e1 - 1) + 1 + (e1 - c)) by lia.
    rewrite !pow2_split by lia.
    assert (0 < 2 ^ (e2 - e1 - 1)) by (apply Z.pow_pos_nonneg; lia).
    assert (0 < 2 ^ (e1 - c)) by (apply Z.pow_pos_nonneg; lia).
    change (2 ^ (53 - 1)) with 4503599627370496 in Hl2.
    change (2 ^ 53) with 9007199254740992 in Hm1.
    change (2 ^ 1) with 2.
    set (A := 2 ^ (e1 - c)) in *. set (B := 2 ^ (e2 - e1 - 1)) in *.
    assert (9007199254740992 <= Zpos m2 * B * 2) as Hbig by nia.
    apply Z.lt_le_trans with (9007199254740992 * A); [nia|].
    replace (Zpos m2 * (B * 2 * A)) with (Zpos m2 * B * 2 * A) by ring.
    apply Z.mul_le_mono_nonneg_r; lia.
  - symmetry. apply Z.compare_gt_iff.
    assert (Zdigits2 (Zpos m1) = 53) as Hd by lia. rewrite Hd in Hl1.
    replace (e1 - c) with ((e1 - e2 - 1) + 1 + (e2 - c)) by lia.
    rewrite !pow2_split by lia.
    assert (0 < 2 ^ (e1 - e2 - 1)) by (apply Z.pow_pos_nonneg; lia).
    assert (0 < 2 ^ (e2 - c)) by (apply Z.pow_pos_nonneg; lia).
    change (2 ^ (53 - 1)) with 4503599627370496 in Hl1.
    change (2 ^ 53) with 9007199254740992 in Hm2.
    change (2 ^ 1) with 2.
    set (A := 2 ^ (e2 - c)) in *. set (B := 2 ^ (e1 - e2 - 1)) in *.
    assert (9007199254740992 <= Zpos m1 * B * 2) as Hbig by nia.
    apply Z.lt_le_trans with (9007199254740992 * A); [nia|].
    replace (Zpos m1 * (B * 2 * A)) with (Zpos m1 * B * 2 * A) by ring.
    apply Z.mul_le_mono_nonneg_r; lia.
Qed.

Lemma scaled_bounds (m : positive) (e : Z) :
  bounded prec emax m e = true ->
  0 < Zpos m * 2 ^ (e - -1074) < 2 ^ 2100.
Proof.
  intros H. destruct (bounded_digits _ _ H) as (Hd & He & _).
  pose proof (Zdigits2_bounds (Zpos m) ltac:(lia)) as [_ Hu].
  assert (Zpos m < 2 ^ 53) as Hm.
  { eapply Z.lt_le_trans; [exact Hu|]. apply Z.pow_le_mono_r; lia. }
  assert (0 < 2 ^ (e - -1074)) by (apply Z.pow_pos_nonneg; lia).
  assert (2 ^ (e - -1074) <= 2 ^ 2045) by (apply Z.pow_le_mono_r; lia).
  split; [lia|].
  replace (2 ^ 2100) with (2 ^ 53 * 2 ^ 2047) by (rewrite <- Z.pow_add_r; reflexivity || lia).
  assert (2 ^ 2045 < 2 ^ 2047) by (apply Z.pow_lt_mono_r; lia).
  nia.
Qed.

(** The comparison of two rounded numbers that are not negative is that
    of their places on the scale. *)
Lemma SFcompare_key (x y : number) :
  rounded false x -> rounded false y ->
  SFcompare x y = Some (key x ?= key y).
Proof.
  intros [->|[->|(mx & ex & -> & Hx)]] [->|[->|(my & ey & -> & Hy)]];
    try reflexivity.
  - pose proof (scaled_bounds _ _ Hy) as Hb. cbn [SFcompare key scaled].
    symmetry. f_equal. apply Z.compare_lt_iff. lia.
  - pose proof (scaled_bounds _ _ Hy) as Hb. cbn [SFcompare key scaled].
    symmetry. f_equal. apply Z.compare_gt_iff. lia.
  - pose proof (scaled_bounds _ _ Hx) as Hb. cbn [SFcompare key scaled].
    symmetry. f_equal. apply Z.compare_gt_iff. lia.
  - pose proof (scaled_bounds _ _ Hx) as Hb. cbn [SFcompare key scaled].
    symmetry. f_equal. apply Z.compare_lt_iff. lia.
  - destruct (bounded_digits _ _ Hx) as (_ & Hex & _).
    destruct (bounded_digits _ _ Hy) as (_ & Hey & _).
    unfold key, scaled. apply SFcompare_scaled; trivial; lia.
Qed.

Lemma leb_key (x y : number) :
  rounded false x -> rounded false y -> (leb x y = true <-> key x <= key y).
Proof.
  intros Hx Hy. unfold leb, SFleb. rewrite (SFcompare_key x y Hx Hy).
  destruct (Z.compare_spec (key x) (key y)); split; intros; try lia; try discriminate;
    reflexivity.
Qed.

Lemma ltb_key (x y : number) :
  rounded false x -> rounded false y -> (JSNumber.ltb x y = true <-> key x < key y).
Proof.
  intros Hx Hy. unfold JSNumber.ltb, SFltb. rewrite (SFcompare_key x y Hx Hy).
  destruct (Z.compare_spec (key x) (key y)); split; intros; try lia; try discriminate;
    reflexivity.
Qed.

End OrderFacts.

(** ** Numbers: the difference and the quotient *)

Section DifferenceFacts.

Lemma rne_ge_floor (V K : Z) : V / 2 ^ K <= rne V K.
Proof.
  unfold rne. destruct (_ <? _); [lia|].
  destruct (_ =? _); [destruct (Z.even _)|]; lia.
Qed.

(** A mantissa whose exponent is in the range of the format survives
    the shift to the exponent of the format. *)
Lemma shift_keeps (m e : Z) :
  0 < m -> -1074 <= e ->
  1 <= m / 2 ^ Z.max 0 (fexp prec emax (Zdigits2 m + e) - e).
Proof.
  intros Hm He. set (k := Z.max 0 _).
  pose proof (Zdigits2_bounds m Hm) as [Hl _].
  pose proof (Zdigits2_pos m Hm) as Hd.
  assert (0 <= k <= Zdigits2 m - 1) as Hk by (unfold k; rewrite fexp_spec; lia).
  assert (0 < 2 ^ k) by (apply Z.pow_pos_nonneg; lia).
  assert (2 ^ k <= 2 ^ (Zdigits2 m - 1)) by (apply Z.pow_le_mono_r; lia).
  apply Z.div_le_lower_bound; lia.
Qed.

Lemma binary_round_aux_nonzero (s s' : bool) (m : positive) (e : Z) :
  -1074 <= e ->
  binary_round_aux prec emax s (Zpos m) e loc_Exact <> S754_zero s'.
Proof.
  intros He. rewrite binary_round_aux_exact.
  set (k := Z.max 0 (fexp prec emax (Zdigits2 (Zpos m) + e) - e)).
  set (q := rne (Zpos m) k).
  assert (1 <= q) as Hq.
  { pose proof (shift_keeps (Zpos m) e ltac:(lia) He) as H. fold k in H.
    pose proof (rne_ge_floor (Zpos m) k). unfold q. lia. }
  assert (-1074 <= e + k) as He1 by (unfold k; lia).
  pose proof (shift_keeps q (e + k) ltac:(lia) He1) as H2.
  destruct (q / 2 ^ _) as [|m'|m']; [lia| |discriminate].
  destruct (_ <=? _); discriminate.
Qed.

Lemma binary_round_nonzero (s s' : bool) (m : positive) (e : Z) :
  -1074 <= e -> binary_round prec emax s m e <> S754_zero s'.
Proof.
  intros He. unfold binary_round.
  destruct (shl_align_value m e (fexp prec emax (Zpos (digits2_pos m) + e)))
    as [_ Hs].
  destruct (shl_align m e _) as [mz ez]. cbn [snd] in Hs.
  apply binary_round_aux_nonzero.
  pose proof (fexp_ge_emin (Zpos (digits2_pos m) + e)). lia.
Qed.

Lemma rounded_true_lt_zero (x : number) :
  rounded true x -> (forall s, x <> S754_zero s) -> JSNumber.ltb x zero = true.
Proof.
  intros [->|[->|(m & e & -> & _)]] Hn; try reflexivity. now elim (Hn true).
Qed.

Lemma rounded_false_not_lt_zero (x : number) :
  rounded false x -> JSNumber.ltb x zero = false.
Proof. intros [->|[->|(m & e & -> & _)]]; reflexivity. Qed.

(** The comparison function of the sort: on two rounded numbers that
    are not negative, the difference is below zero exactly when the
    first is below the second. *)
Lemma sub_lt_zero (x y : number) :
  rounded false x -> rounded false y ->
  JSNumber.ltb (sub x y) zero = JSNumber.ltb x y.
Proof.
  intros [->|[->|(mx & ex & -> & Hx)]] [->|[->|(my & ey & -> & Hy)]];
    try reflexivity.
  destruct (bounded_digits _ _ Hx) as (_ & Hex & _).
  destruct (bounded_digits _ _ Hy) as (_ & Hey & _).
  unfold sub, SFsub, JSNumber.ltb at 2, SFltb.
  rewrite (SFcompare_scaled mx my ex ey (Z.min ex ey)) by (trivial; lia).
  destruct (shl_align_value mx ex (Z.min ex ey)) as [Ha Hsa].
  destruct (shl_align_value my ey (Z.min ex ey)) as [Hb Hsb].
  rewrite Hsa in Ha. rewrite Hsb in Hb.
  replace (Z.min ex (Z.min ex ey)) with (Z.min ex ey) in Ha by lia.
  replace (Z.min ey (Z.min ex ey)) with (Z.min ex ey) in Hb by lia.
  rewrite <- Ha, <- Hb. cbn [cond_Zopp].
  set (a := fst (shl_align mx ex (Z.min ex ey))) in *.
  set (b := fst (shl_align my ey (Z.min ex ey))) in *.
  clearbody a b.
  destruct (Z.compare_spec (Zpos a) (Zpos b)) as [Heq|Hlt|Hgt].
  - rewrite Heq, Z.sub_diag. reflexivity.
  - destruct (Zpos a - Zpos b) as [|p|p] eqn:HD; try lia.
    cbn [binary_normalize]. apply rounded_true_lt_zero.
    + apply binary_round_rounded.
    + intros s. apply binary_round_nonzero. lia.
  - destruct (Zpos a - Zpos b) as [|p|p] eqn:HD; try lia.
    cbn [binary_normalize]. apply rounded_false_not_lt_zero.
    apply binary_round_rounded.
Qed.

Lemma SFdiv_core_binary_self (m : positive) (e : Z) :
  SFdiv_core_binary prec emax (Zpos m) e (Zpos m) e = (2 ^ 53, -53, loc_Exact).
Proof.
  unfold SFdiv_core_binary.
  set (d := Zdigits2 (Zpos m)).
  set (e' := Z.min (fexp prec emax (d + e - (d + e))) (e - e)).
  assert (e' = -53) as He'.
  { unfold e'. replace (d + e - (d + e)) with 0 by lia.
    replace (e - e) with 0 by lia. reflexivity. }
  clearbody e'. subst e'.
  replace (e - e - -53) with 53 by lia.
  rewrite Z.shiftl_mul_pow2 by lia.
  pose proof (Z_div_mod (Zpos m * 2 ^ 53) (Zpos m) ltac:(lia)) as H.
  destruct (Z.div_eucl (Zpos m * 2 ^ 53) (Zpos m)) as [q r].
  destruct H as [Hq Hr].
  change (2 ^ 53) with 9007199254740992 in *.
  assert (q = 9007199254740992) as ->
      by (destruct (Z.lt_trichotomy q 9007199254740992) as [|[|]]; nia).
  assert (r = 0) as -> by lia.
  f_equal. unfold new_location, new_location_even, new_location_odd.
  destruct (Z.even (Zpos m)); reflexivity.
Qed.

(** A finite number that is not zero, divided by itself, is 1. *)
Lemma div_self (s : bool) (m : positive) (e : Z) :
  div (S754_finite s m e) (S754_finite s m e) = of_Z 1.
Proof.
  unfold div, SFdiv. rewrite SFdiv_core_binary_self, xorb_nilpotent.
  reflexivity.
Qed.

End DifferenceFacts.

(** ** Calculator.calculateAllModes: the comparison *)

Section ComparisonFacts.
Import CONFIG Calculator.

Lemma mul_shape (s : bool) (x : number) (my : positive) (ey : Z) :
  shape s x -> shape s (mul x (S754_finite false my ey)).
Proof.
  intros [->|[->|(m & e & ->)]]; cbn [mul SFmul]; rewrite xorb_false_r;
    [now left | right; now left |].
  apply (binary_round_aux_sign_kept s (Zpos (m * my)) (e + ey) loc_Exact). lia.
Qed.

Lemma rounded_shape (s : bool) (x : number) : rounded s x -> shape s x.
Proof.
  intros [->|[->|(m & e & -> & _)]]; [now left | right; now left |].
  right. right. eauto.
Qed.

Lemma Math_round_shape (s : bool) (x : number) :
  shape s x -> shape s (Math_round x).
Proof.
  intros [->|[->|(m & e & ->)]]; [now left | right; now left |].
  cbn [Math_round]. destruct (0 <=? e) eqn:He; [right; right; eauto|].
  apply Z.leb_gt in He.
  assert (0 < 2 ^ (- e)) as Hp by (apply Z.pow_pos_nonneg; lia).
  assert (0 < 2 ^ (1 - e)) as Hq by (apply Z.pow_pos_nonneg; lia).
  assert (2 ^ (1 - e) = 2 * 2 ^ (- e)) as Hpow.
  { replace (1 - e) with (Z.succ (- e)) by lia. apply Z.pow_succ_r. lia. }
  rewrite Z.shiftr_div_pow2 by lia.
  destruct s; cbn [cond_Zopp].
  - assert ((2 * - Zpos m + 2 ^ (- e)) / 2 ^ (1 - e) <= 0) as Hn.
    { assert ((2 * - Zpos m + 2 ^ (- e)) / 2 ^ (1 - e) < 1); [|lia].
      apply Z.div_lt_upper_bound; lia. }
    destruct (_ / _) as [|n|n] eqn:Hs; [now left|lia|].
    apply rounded_shape. apply (of_Z_rounded (Zneg n)).
  - assert (0 <= (2 * Zpos m + 2 ^ (- e)) / 2 ^ (1 - e)) as Hn
        by (apply Z.div_pos; lia).
    destruct (_ / _) as [|n|n] eqn:Hs; [now left| |lia].
    apply rounded_shape. apply (of_Z_rounded (Zpos n)).
Qed.

Lemma div_shape_rounded (s : bool) (x : number) (my : positive) (ey : Z) :
  shape s x -> rounded s (div x (S754_finite false my ey)).
Proof.
  intros [->|[->|(m & e & ->)]].
  - left. cbn [div SFdiv]. now rewrite xorb_false_r.
  - right. left. cbn [div SFdiv]. now rewrite xorb_false_r.
  - rewrite <- (xorb_false_r s) at 1. apply div_rounded.
Qed.

(** The emission of a positive finite distance is a rounded number. *)
Lemma calculateEmission_rounded (m : positive) (e : Z) (mode : jsstring)
      (factor : number) :
  own EMISSION_FACTORS mode = Some factor ->
  rounded false (calculateEmission (S754_finite false m e) mode).
Proof.
  intros Hm. destruct (known_mode_factor _ _ Hm) as (Hf & _ & Hfin & Hs).
  unfold calculateEmission, get. rewrite Hf, Hm. cbn [orb JSNumber.ltb SFltb SFcompare ToNumber].
  rewrite round2_positive_divisor. apply div_shape_rounded.
  apply Math_round_shape. apply mul_shape.
  destruct factor as [sf|sf| |sf mf ef]; try discriminate; simpl in Hs; subst sf.
  - now left.
  - now apply mul_shape; right; right; eauto.
Qed.

Lemma car_factor : own EMISSION_FACTORS (js "car") = Some (dec 12 2).
Proof. reflexivity. Qed.

(** A baseline that is finite and not zero comes from a positive finite
    distance, and is itself positive. *)
Lemma baseline_finite_nonzero (distanceKm : number) :
  is_finite (calculateEmission distanceKm (js "car")) = true ->
  strict_eq (calculateEmission distanceKm (js "car")) zero = false ->
  (exists m e, distanceKm = S754_finite false m e)
  /\ (exists mc ec, calculateEmission distanceKm (js "car") = S754_finite false mc ec).
Proof.
  intros Hfin Hnz.
  assert (exists m e, distanceKm = S754_finite false m e) as (m & e & ->).
  { destruct distanceKm as [[]|[]| |[] m e]; try discriminate; eauto. }
  split; [eauto|].
  destruct (calculateEmission_rounded m e _ _ car_factor) as [H|[H|(mc & ec & H & _)]];
    rewrite H in *; try discriminate; eauto.
Qed.

Lemma keys_NoDup : NoDup (Object_keys EMISSION_FACTORS).
Proof.
  apply (distinct_NoDup (Object_keys EMISSION_FACTORS)). vm_compute. reflexivity.
Qed.

Lemma keys_known (k : jsstring) :
  In k (Object_keys EMISSION_FACTORS) -> exists f, own EMISSION_FACTORS k = Some f.
Proof.
  unfold Object_keys, EMISSION_FACTORS. simpl.
  intros H. repeat (destruct H as [<-|H]; [eexists; reflexivity|]). destruct H.
Qed.

Lemma entry_le_trans (a b c : ComparisonEntry) :
  entry_le a b -> entry_le b c -> entry_le a c.
Proof.
  intros (Ha & Hb & Hab) (_ & Hc & Hbc). repeat split; trivial.
  apply leb_key in Hab, Hbc; trivial. apply leb_key; trivial. lia.
Qed.

Lemma byEmission_le (a b : ComparisonEntry) :
  rounded false (emission a) -> rounded false (emission b) ->
  byEmission a b = true -> entry_le a b.
Proof.
  intros Ha Hb H. repeat split; trivial.
  unfold byEmission in H. rewrite sub_lt_zero in H by assumption.
  apply ltb_key in H; trivial. apply leb_key; trivial. lia.
Qed.

Lemma not_byEmission_le (a b : ComparisonEntry) :
  rounded false (emission a) -> rounded false (emission b) ->
  byEmission a b = false -> entry_le b a.
Proof.
  intros Ha Hb H. repeat split; trivial.
  unfold byEmission in H. rewrite sub_lt_zero in H by assumption.
  apply leb_key; trivial.
  destruct (Z.lt_ge_cases (key (emission a)) (key (emission b))) as [Hlt|]; [|lia].
  apply ltb_key in Hlt; trivial. congruence.
Qed.

Lemma StronglySorted_weaken {A : Type} (R R' : A -> A -> Prop) (l : list A) :
  (forall x y, R x y -> R' x y) -> StronglySorted R l -> StronglySorted R' l.
Proof.
  intros HR Hl. induction Hl as [|x l Hl IH Hx]; constructor; trivial.
  eapply Forall_impl; [|exact Hx]. intros y. apply HR.
Qed.

End ComparisonFacts.

Section ComparisonClaim.
Import CONFIG Calculator.

Lemma entries_rounded (m : positive) (e : Z) (carEmission : number) :
  Forall (fun a => rounded false (emission a))
         (map (entry (S754_finite false m e) carEmission) (Object_keys EMISSION_FACTORS)).
Proof.
  apply Forall_forall. intros a Ha. apply in_map_iff in Ha.
  destruct Ha as (k & <- & Hk). destruct (keys_known k Hk) as [f Hf].
  cbn [entry emission]. eapply calculateEmission_rounded; eassumption.
Qed.

Lemma calculateAllModes_entries (distanceKm : number) (a : ComparisonEntry) :
  strict_eq (calculateEmission distanceKm (js "car")) zero = false ->
  In a (calculateAllModes distanceKm) ->
  exists k, In k (Object_keys EMISSION_FACTORS)
            /\ a = entry distanceKm (calculateEmission distanceKm (js "car")) k.
Proof.
  intros Hnz Ha. unfold calculateAllModes in Ha. rewrite Hnz in Ha.
  apply (Permutation_in _ (sort_perm byEmission _)) in Ha.
  apply in_map_iff in Ha. destruct Ha as (k & <- & Hk). eauto.
Qed.

(** C4, as the code has it.  When the emission of the car is finite and
    not zero, [calculateAllModes] returns one entry for each mode of the
    table, in ascending order of emission; the percentage of every entry
    is its emission divided by that of the car, times 100, rounded to
    two decimals, and that of the car is exactly 100. *)
Theorem calculateAllModes_sorted_comparison (distanceKm : number) :
  let carEmission := calculateEmission distanceKm (js "car") in
  is_finite carEmission = true -> strict_eq carEmission zero = false ->
  Permutation (map mode (calculateAllModes distanceKm)) (Object_keys EMISSION_FACTORS)
  /\ NoDup (map mode (calculateAllModes distanceKm))
  /\ StronglySorted (fun a b => leb (emission a) (emission b) = true)
                    (calculateAllModes distanceKm)
  /\ (forall a, In a (calculateAllModes distanceKm) ->
                emission a = calculateEmission distanceKm (mode a)
                /\ percentageVsCar a
                   = round2 (mul (div (emission a) carEmission) (of_Z 100)))
  /\ (forall a, In a (calculateAllModes distanceKm) ->
                mode a = js "car" -> percentageVsCar a = of_Z 100).
Proof.
  intros carEmission Hfin Hnz.
  destruct (baseline_finite_nonzero distanceKm Hfin Hnz)
    as ((m & e & Hd) & (mc & ec & Hcar)).
  assert (Permutation (calculateAllModes distanceKm)
                      (map (entry distanceKm carEmission) (Object_keys EMISSION_FACTORS)))
    as Hperm.
  { unfold calculateAllModes. fold carEmission. rewrite Hnz. apply sort_perm. }
  assert (Permutation (map mode (calculateAllModes distanceKm))
                      (Object_keys EMISSION_FACTORS)) as Hmodes.
  { rewrite Hperm, map_map. cbn [entry mode]. now rewrite map_id. }
  split; [exact Hmodes|]. split; [|split; [|split]].
  - eapply Permutation_NoDup; [symmetry; exact Hmodes | apply keys_NoDup].
  - apply StronglySorted_weaken with (R := entry_le).
    { intros x y (_ & _ & H). exact H. }
    apply Sorted_StronglySorted.
    { intros x y z. apply entry_le_trans. }
    unfold calculateAllModes. fold carEmission. rewrite Hnz.
    apply sort_sorted with (P := fun a => rounded false (emission a)).
    + apply byEmission_le.
    + apply not_byEmission_le.
    + subst distanceKm. apply entries_rounded.
  - intros a Ha.
    destruct (calculateAllModes_entries distanceKm a Hnz Ha) as (k & Hk & ->).
    fold carEmission. cbn [entry emission mode percentageVsCar].
    split; [reflexivity|]. apply round2_native.
    assert (rounded false (calculateEmission distanceKm k)) as Hr.
    { destruct (keys_known _ Hk) as [f Hf].
      subst distanceKm. eapply calculateEmission_rounded; eassumption. }
    apply mul_not_lt; [|reflexivity].
    unfold carEmission. rewrite Hcar. apply div_not_lt.
    now apply rounded_false_not_lt_zero.
  - intros a Ha Hmode.
    destruct (calculateAllModes_entries distanceKm a Hnz Ha) as (k & _ & ->).
    cbn [entry mode] in Hmode. subst k.
    cbn [entry percentageVsCar]. rewrite Hcar, div_self.
    reflexivity.
Qed.

Lemma calculateAllModes_sorted_comparison_witness :
  is_finite (calculateEmission (of_Z 100) (js "car")) = true
  /\ strict_eq (calculateEmission (of_Z 100) (js "car")) zero = false
  /\ StronglySorted (fun a b => leb (emission a) (emission b) = true)
                    (calculateAllModes (of_Z 100)).
Proof.
  split; [reflexivity|]. split; [reflexivity|].
  apply (calculateAllModes_sorted_comparison (of_Z 100)); reflexivity.
Defined.

(** C4, as stated, fails when the emission of the car overflows: at a
    distance of [10^308] km it is infinite, which is not zero, and the
    percentage of the car is NaN. *)
Lemma calculateAllModes_overflow_counterexample :
  ~ (forall distanceKm a,
        strict_eq (calculateEmission distanceKm (js "car")) zero = false ->
        In a (calculateAllModes distanceKm) ->
        mode a = js "car" -> percentageVsCar a = of_Z 100).
Proof.
  intros H.
  specialize (H (of_Z (10 ^ 308))
                {| mode := js "car"; emission := S754_infinity false;
                   percentageVsCar := NaN |}).
  assert (NaN = of_Z 100) as Hnan; [|discriminate Hnan].
  apply H; [reflexivity | vm_compute; tauto | reflexivity].
Qed.

End ComparisonClaim.

(** ** Numbers: the rounding is monotone *)

Section MonotoneFacts.

Lemma Zle_by_computation (a b : Z) : (a <=? b) = true -> a <= b.
Proof. apply Z.leb_le. Qed.

Lemma Zlt_by_computation (a b : Z) : (a <? b) = true -> a < b.
Proof. apply Z.ltb_lt. Qed.

Lemma rne_multiple (g K : Z) : 0 <= K -> rne (g * 2 ^ K) K = g.
Proof.
  intros HK. unfold rne.
  assert (0 < 2 ^ K) by (apply Z.pow_pos_nonneg; lia).
  rewrite Z.div_mul, Z.mod_mul by lia.
  destruct (Z.ltb_spec (2 * 0) (2 ^ K)); [reflexivity | lia].
Qed.

Lemma rne_no_shift (m : Z) : rne m 0 = m.
Proof. unfold rne. rewrite Z.pow_0_r, Z.div_1_r, Z.mod_1_r. reflexivity. Qed.

Lemma rne_scale (m j k : Z) : 0 <= j -> 0 <= k -> rne (m * 2 ^ j) (k + j) = rne m k.
Proof.
  intros Hj Hk. unfold rne.
  assert (0 < 2 ^ j) as Hpj by (apply Z.pow_pos_nonneg; lia).
  assert (0 < 2 ^ k) as Hpk by (apply Z.pow_pos_nonneg; lia).
  rewrite Z.pow_add_r by lia.
  rewrite Z.div_mul_cancel_r, Z.mul_mod_distr_r by lia.
  set (r := m mod 2 ^ k). set (a := m / 2 ^ k).
  destruct (Z.ltb_spec (2 * (r * 2 ^ j)) (2 ^ k * 2 ^ j)), (Z.ltb_spec (2 * r) (2 ^ k));
    try nia; trivial.
  destruct (Z.eqb_spec (2 * (r * 2 ^ j)) (2 ^ k * 2 ^ j)), (Z.eqb_spec (2 * r) (2 ^ k));
    try nia; trivial.
Qed.

Lemma rne_le_grid (V g K : Z) : 0 <= K -> V <= g * 2 ^ K -> rne V K <= g.
Proof.
  intros HK HV. unfold rne.
  assert (0 < 2 ^ K) as HP by (apply Z.pow_pos_nonneg; lia).
  pose proof (Z.div_mod V (2 ^ K) ltac:(lia)) as Hdm.
  pose proof (Z.mod_pos_bound V (2 ^ K) HP) as Hr.
  set (a := V / 2 ^ K) in *. set (r := V mod 2 ^ K) in *.
  clearbody a r.
  assert (a <= g) by nia.
  destruct (Z.ltb_spec (2 * r) (2 ^ K)); [lia|].
  assert (a < g) by nia.
  destruct (_ =? _); [destruct (Z.even a)|]; lia.
Qed.

Lemma rne_mono (V W K : Z) : 0 <= K -> V <= W -> rne V K <= rne W K.
Proof.
  intros HK HVW. unfold rne.
  assert (0 < 2 ^ K) as HP by (apply Z.pow_pos_nonneg; lia).
  pose proof (Z.div_mod V (2 ^ K) ltac:(lia)) as HV.
  pose proof (Z.mod_pos_bound V (2 ^ K) HP) as HrV.
  pose proof (Z.div_mod W (2 ^ K) ltac:(lia)) as HW.
  pose proof (Z.mod_pos_bound W (2 ^ K) HP) as HrW.
  set (a := V / 2 ^ K) in *. set (r := V mod 2 ^ K) in *.
  set (b := W / 2 ^ K) in *. set (t := W mod 2 ^ K) in *.
  clearbody a r b t.
  assert (a <= b) as Hab by nia.
  destruct (Z.eq_dec a b) as [Heq|Hne].
  - subst b. assert (r <= t) by lia.
    destruct (Z.ltb_spec (2 * r) (2 ^ K)), (Z.ltb_spec (2 * t) (2 ^ K));
      destruct (Z.eqb_spec (2 * r) (2 ^ K)), (Z.eqb_spec (2 * t) (2 ^ K));
      destruct (Z.even a); lia.
  - assert (a + 1 <= b) by lia.
    destruct (Z.ltb_spec (2 * r) (2 ^ K)), (Z.ltb_spec (2 * t) (2 ^ K));
      destruct (Z.eqb_spec (2 * r) (2 ^ K)), (Z.eqb_spec (2 * t) (2 ^ K));
      destruct (Z.even a), (Z.even b); lia.
Qed.

Lemma round_exponent_spec (c V : Z) :
  round_exponent c V = Z.max (Zdigits2 V - 53) (-1074 - c).
Proof. unfold round_exponent. rewrite fexp_spec. lia. Qed.

(** The rounding of the format is monotone. *)
Lemma round_scaled_mono (c V W : Z) :
  c <= -1074 -> 0 < V -> V <= W -> round_scaled c V <= round_scaled c W.
Proof.
  intros Hc HV HVW. unfold round_scaled.
  pose proof (Zdigits2_mono V W HV HVW) as Hd.
  pose proof (round_exponent_spec c V) as HK1.
  pose proof (round_exponent_spec c W) as HK2.
  set (K1 := round_exponent c V) in *. set (K2 := round_exponent c W) in *.
  assert (0 <= K1 <= K2) as HK by lia.
  destruct (Z.eq_dec K1 K2) as [Heq|Hne].
  - rewrite Heq. apply Z.mul_le_mono_nonneg_r; [apply Z.pow_nonneg; lia|].
    apply rne_mono; lia.
  - assert (K2 = Zdigits2 W - 53) as HW2 by lia.
    pose proof (Zdigits2_bounds V HV) as [_ HuV].
    pose proof (Zdigits2_bounds W ltac:(lia)) as [HlW _].
    pose proof (Zdigits2_pos V HV) as HdV.
    assert (0 < 2 ^ K1) as HP1 by (apply Z.pow_pos_nonneg; lia).
    assert (0 < 2 ^ K2) as HP2 by (apply Z.pow_pos_nonneg; lia).
    (* below: at most 2^53 multiples of 2^K1 *)
    assert (rne V K1 <= 2 ^ 53) as Hlow.
    { apply rne_le_grid; [lia|]. rewrite <- Z.pow_add_r by lia.
      apply Z.lt_le_incl. eapply Z.lt_le_trans; [exact HuV|].
      apply Z.pow_le_mono_r; lia. }
    (* above: at least 2^52 multiples of 2^K2 *)
    assert (2 ^ 52 <= rne W K2) as Hhigh.
    { eapply Z.le_trans; [|apply rne_ge_floor].
      apply Z.div_le_lower_bound; [lia|].
      rewrite Z.mul_comm, <- Z.pow_add_r by lia.
      eapply Z.le_trans; [|exact HlW]. apply Z.pow_le_mono_r; lia. }
    apply Z.le_trans with (2 ^ 53 * 2 ^ K1).
    { apply Z.mul_le_mono_nonneg_r; lia. }
    apply Z.le_trans with (2 ^ 52 * 2 ^ K2).
    { rewrite <- !Z.pow_add_r by lia. apply Z.pow_le_mono_r; lia. }
    apply Z.mul_le_mono_nonneg_r; lia.
Qed.

End MonotoneFacts.

(** ** Numbers: the value of a rounded product *)

Section ExactFacts.

(** After the rounding, the shift to the exponent of the format loses no
    digit. *)
Lemma second_shift_exact (m : positive) (e : Z) :
  let k := Z.max 0 (fexp prec emax (Zdigits2 (Zpos m) + e) - e) in
  let q := rne (Zpos m) k in
  let e1 := e + k in
  let k2 := Z.max 0 (fexp prec emax (Zdigits2 q + e1) - e1) in
  q / 2 ^ k2 * 2 ^ k2 = q.
Proof.
  intros k q e1 k2.
  pose proof (fexp_spec (Zdigits2 (Zpos m) + e)) as HE.
  set (E := fexp prec emax (Zdigits2 (Zpos m) + e)) in *.
  assert (0 <= q) as Hq0 by (apply rne_nonneg; lia).
  pose proof (Zdigits2_bounds (Zpos m) ltac:(lia)) as [_ Hu].
  pose proof (Zdigits2_pos (Zpos m) ltac:(lia)) as Hdm.
  destruct (Z.le_gt_cases E e) as [Hle|Hgt].
  - (* no first shift *)
    assert (k = 0) as Hk by (unfold k; lia).
    assert (q = Zpos m) as Hq.
    { unfold q. rewrite Hk. apply rne_no_shift. }
    assert (k2 = 0) as Hk2.
    { unfold k2, e1. rewrite Hq, Hk, Z.add_0_r. fold E. lia. }
    rewrite Hk2, Z.pow_0_r, Z.div_1_r. lia.
  - assert (k = E - e) as Hk by (unfold k; lia).
    assert (0 < 2 ^ k) as Hpk by (apply Z.pow_pos_nonneg; lia).
    assert (q <= 2 ^ 53) as Hq53.
    { unfold q. apply rne_le_grid; [lia|]. rewrite <- Z.pow_add_r by lia.
      apply Z.lt_le_incl. eapply Z.lt_le_trans; [exact Hu|].
      apply Z.pow_le_mono_r; lia. }
    assert (e1 = E) as He1 by (unfold e1; lia).
    destruct (Z.eq_dec q (2 ^ 53)) as [Heq|Hne].
    + assert (k2 = 1) as Hk2.
      { unfold k2. rewrite Heq, He1. change (Zdigits2 (2 ^ 53)) with 54.
        rewrite fexp_spec. lia. }
      rewrite Hk2, Heq. reflexivity.
    + assert (k2 = 0) as Hk2.
      { unfold k2. rewrite He1.
        assert (Zdigits2 q <= 53) by (apply Zdigits2_lt_pow2; lia).
        rewrite fexp_spec. lia. }
      rewrite Hk2, Z.pow_0_r, Z.div_1_r. lia.
Qed.

(** The value of [binary_round_aux] on an exact positive mantissa is the
    rounding of the value of the mantissa. *)
Lemma binary_round_aux_value (s : bool) (m : positive) (e c : Z) :
  c <= -1074 -> c <= e ->
  let V := Zpos m * 2 ^ (e - c) in
  let r := binary_round_aux prec emax s (Zpos m) e loc_Exact in
  (r = S754_zero s /\ round_scaled c V = 0)
  \/ (r = S754_infinity s /\ 2 ^ (971 - c) <= round_scaled c V)
  \/ (exists m' e', r = S754_finite s m' e' /\ c <= e'
                    /\ Zpos m' * 2 ^ (e' - c) = round_scaled c V).
Proof.
  intros Hc He V r. subst r.
  pose proof (second_shift_exact m e) as Hexact. cbv zeta in Hexact.
  rewrite binary_round_aux_exact.
  set (E := fexp prec emax (Zdigits2 (Zpos m) + e)) in *.
  set (k := Z.max 0 (E - e)) in *.
  set (q := rne (Zpos m) k) in *.
  set (e1 := e + k) in *.
  set (k2 := Z.max 0 (fexp prec emax (Zdigits2 q + e1) - e1)) in *.
  assert (0 < 2 ^ (e - c)) as Hpe by (apply Z.pow_pos_nonneg; lia).
  assert (0 < V) as HV by (unfold V; lia).
  assert (Zdigits2 V = Zdigits2 (Zpos m) + (e - c)) as HdV
      by (unfold V; apply Zdigits2_mul_pow2; lia).
  assert (round_exponent c V = E - c) as HK.
  { unfold round_exponent, E. rewrite HdV. f_equal. f_equal. lia. }
  pose proof (fexp_ge_emin (Zdigits2 (Zpos m) + e)) as HE. fold E in HE.
  assert (q * 2 ^ (e1 - c) = round_scaled c V) as Hq.
  { unfold round_scaled. rewrite HK. unfold q, e1, k.
    destruct (Z.le_gt_cases E e) as [Hle|Hgt].
    - rewrite Z.max_l by lia. rewrite Z.add_0_r, rne_no_shift.
      replace V with (Zpos m * 2 ^ (e - E) * 2 ^ (E - c)).
      + rewrite rne_multiple by lia. rewrite <- Z.mul_assoc, <- Z.pow_add_r by lia.
        f_equal. f_equal. lia.
      + unfold V. rewrite <- Z.mul_assoc, <- Z.pow_add_r by lia. f_equal. f_equal. lia.
    - rewrite Z.max_r by lia.
      replace (E - c) with ((E - e) + (e - c)) by lia.
      unfold V. rewrite rne_scale by lia. f_equal. f_equal. lia. }
  assert (0 <= q) as Hq0 by (apply rne_nonneg; lia).
  assert (0 <= k /\ 0 <= k2) as [Hk Hk2] by (unfold k, k2; lia).
  assert (0 < 2 ^ k2) as Hpk2 by (apply Z.pow_pos_nonneg; lia).
  assert (0 < 2 ^ (e1 - c)) as Hpe1 by (apply Z.pow_pos_nonneg; unfold e1; lia).
  destruct (q / 2 ^ k2) as [|m'|m'] eqn:Hm'.
  - left. split; trivial. rewrite <- Hq. rewrite <- Hexact. lia.
  - assert (Zpos m' * 2 ^ (e1 + k2 - c) = round_scaled c V) as Hval.
    { rewrite <- Hq. replace (e1 + k2 - c) with (k2 + (e1 - c)) by lia.
      rewrite Z.pow_add_r by (unfold e1; lia). rewrite <- Hexact. ring. }
    destruct (e1 + k2 <=? emax - prec) eqn:Hle.
    + right. right. exists m', (e1 + k2). repeat split; trivial. unfold e1. lia.
    + right. left. split; trivial. apply Z.leb_gt in Hle.
      unfold emax, prec in Hle. rewrite <- Hval.
      assert (2 ^ (971 - c) <= 2 ^ (e1 + k2 - c))
        by (apply Z.pow_le_mono_r; unfold e1; lia).
      assert (0 < 2 ^ (e1 + k2 - c)) by (apply Z.pow_pos_nonneg; unfold e1; lia).
      nia.
  - pose proof (div_pow2_nonneg q k2 Hq0). lia.
Qed.

End ExactFacts.

(** ** Calculator.calculateAllModes: the distances with an empty result *)

Section ThresholdFacts.
Import CONFIG Calculator.

Lemma mul_rounded (sx sy : bool) (mx my : positive) (ex ey : Z) :
  bounded prec emax mx ex = true -> bounded prec emax my ey = true ->
  rounded (xorb sx sy) (mul (S754_finite sx mx ex) (S754_finite sy my ey)).
Proof.
  intros Hx Hy. unfold mul, SFmul. apply binary_round_aux_rounded; [lia|].
  destruct (bounded_digits _ _ Hx) as (Hdx & Hex & Hnx).
  destruct (bounded_digits _ _ Hy) as (Hdy & Hey & Hny).
  assert (Zdigits2 (Zpos mx) + Zdigits2 (Zpos my) - 1 <= Zdigits2 (Zpos (mx * my))) as Hd.
  { rewrite Pos2Z.inj_mul, !Zdigits2_log2 by lia.
    pose proof (Z.log2_mul_below (Zpos mx) (Zpos my) ltac:(lia) ltac:(lia)). lia. }
  pose proof (Zdigits2_pos (Zpos mx) ltac:(lia)).
  pose proof (Zdigits2_pos (Zpos my) ltac:(lia)).
  rewrite fexp_spec. lia.
Qed.

Lemma round_scaled_nonneg (c V : Z) : 0 <= V -> 0 <= round_scaled c V.
Proof.
  intros HV. unfold round_scaled. apply Z.mul_nonneg_nonneg.
  - now apply rne_nonneg.
  - apply Z.pow_nonneg. lia.
Qed.

(** The value of a product of two positive numbers of the format is the
    rounding of the product of the values. *)
Lemma mul_key (mx my : positive) (ex ey : Z) :
  bounded prec emax mx ex = true -> bounded prec emax my ey = true -> ey <= 0 ->
  let r := mul (S754_finite false mx ex) (S754_finite false my ey) in
  let V := key (S754_finite false mx ex) * Zpos my in
  rounded false r
  /\ ((r = S754_infinity false /\ 2 ^ (971 - (-1074 + ey)) <= round_scaled (-1074 + ey) V)
      \/ (r <> S754_infinity false
          /\ key r * 2 ^ (- ey) = round_scaled (-1074 + ey) V)).
Proof.
  intros Hx Hy Hey r V.
  pose proof (mul_rounded false false mx my ex ey Hx Hy) as Hr. fold r in Hr.
  cbn [xorb] in Hr. split; trivial.
  destruct (bounded_digits _ _ Hx) as (_ & Hex & _).
  set (c := -1074 + ey) in *.
  assert (0 < 2 ^ (- ey)) as Hp by (apply Z.pow_pos_nonneg; lia).
  assert (0 < 2 ^ (ex - -1074)) as Hpx by (apply Z.pow_pos_nonneg; lia).
  assert (Zpos (mx * my) * 2 ^ (ex + ey - c) = V) as HVeq.
  { unfold V, key, scaled, c. rewrite Pos2Z.inj_mul.
    replace (ex + ey - (-1074 + ey)) with (ex - -1074) by lia. ring. }
  destruct (binary_round_aux_value false (mx * my) (ex + ey) c
              ltac:(unfold c; lia) ltac:(unfold c; lia))
    as [[H H0]|[[H Hov]|(m' & e' & H & He' & Hval)]];
    rewrite HVeq in *;
    change (binary_round_aux prec emax false (Zpos (mx * my)) (ex + ey) loc_Exact)
      with r in H.
  - right. rewrite H. split; [discriminate|]. cbn [key scaled]. lia.
  - left. now split.
  - right. rewrite H in *. split; [discriminate|].
    destruct Hr as [Hr|[Hr|(m2 & e2 & Hr & Hb)]]; try discriminate.
    injection Hr as <- <-.
    destruct (bounded_digits _ _ Hb) as (_ & He2 & _).
    unfold key, scaled. rewrite <- Hval.
    rewrite <- Z.mul_assoc, <- Z.pow_add_r by lia. f_equal. f_equal. unfold c. lia.
Qed.

(** A bound above on a factor gives a bound above on the rounded
    product. *)
Lemma mul_key_bound (mx my : positive) (ex ey Vmax B : Z) :
  bounded prec emax mx ex = true -> bounded prec emax my ey = true -> ey <= 0 ->
  key (S754_finite false mx ex) * Zpos my <= Vmax ->
  round_scaled (-1074 + ey) Vmax <= B * 2 ^ (- ey) ->
  B * 2 ^ (- ey) < 2 ^ (971 - (-1074 + ey)) ->
  let r := mul (S754_finite false mx ex) (S754_finite false my ey) in
  rounded false r /\ r <> S754_infinity false /\ key r <= B.
Proof.
  intros Hx Hy Hey HV HR HB r.
  destruct (mul_key mx my ex ey Hx Hy Hey) as [Hr Hcases]. fold r in Hr, Hcases.
  split; trivial.
  destruct (bounded_digits _ _ Hx) as (_ & Hex & _).
  assert (0 < 2 ^ (- ey)) as Hp by (apply Z.pow_pos_nonneg; lia).
  assert (0 < key (S754_finite false mx ex) * Zpos my) as HV0.
  { unfold key, scaled.
    assert (0 < 2 ^ (ex - -1074)) by (apply Z.pow_pos_nonneg; lia). lia. }
  pose proof (round_scaled_mono (-1074 + ey) _ _ ltac:(lia) HV0 HV) as Hmono.
  destruct Hcases as [[_ Hov]|[Hfin Hval]]; [lia|].
  split; trivial. nia.
Qed.

(** A bound below on a factor gives a bound below on the rounded
    product, or an infinite product. *)
Lemma mul_key_lower (mx my : positive) (ex ey Vmin B : Z) :
  bounded prec emax mx ex = true -> bounded prec emax my ey = true -> ey <= 0 ->
  0 < Vmin -> Vmin <= key (S754_finite false mx ex) * Zpos my ->
  B * 2 ^ (- ey) <= round_scaled (-1074 + ey) Vmin -> B <= 2 ^ 2100 ->
  let r := mul (S754_finite false mx ex) (S754_finite false my ey) in
  rounded false r /\ B <= key r.
Proof.
  intros Hx Hy Hey HV0 HV HR HB r.
  destruct (mul_key mx my ex ey Hx Hy Hey) as [Hr Hcases]. fold r in Hr, Hcases.
  split; trivial.
  assert (0 < 2 ^ (- ey)) as Hp by (apply Z.pow_pos_nonneg; lia).
  pose proof (round_scaled_mono (-1074 + ey) _ _ ltac:(lia) HV0 HV) as Hmono.
  destruct Hcases as [[Hinf _]|[Hfin Hval]].
  - rewrite Hinf. exact HB.
  - nia.
Qed.

(** A rounded number below one half is rounded to zero by [Math.round]. *)
Lemma Math_round_below_half (x : number) :
  rounded false x -> key x < 2 ^ 1073 -> Math_round x = S754_zero false.
Proof.
  intros [->|[->|(m & e & -> & Hb)]] Hk; [reflexivity| |].
  - exfalso. cbn [key] in Hk.
    assert (2 ^ 1073 < 2 ^ 2100) by (apply Z.pow_lt_mono_r; lia). lia.
  - destruct (bounded_digits _ _ Hb) as (_ & He & _).
    unfold key, scaled in Hk.
    assert (e < 0) as Hneg.
    { destruct (Z.lt_ge_cases e 0) as [|Hge]; trivial.
      assert (2 ^ 1073 < 2 ^ (e - -1074)) by (apply Z.pow_lt_mono_r; lia). nia. }
    unfold Math_round. destruct (Z.leb_spec 0 e) as [|_]; [lia|].
    cbn [cond_Zopp].
    assert (0 < 2 ^ (- e)) as Hp by (apply Z.pow_pos_nonneg; lia).
    assert (0 < 2 ^ (e - -1074)) as Hq by (apply Z.pow_pos_nonneg; lia).
    assert (2 ^ (- e) * 2 ^ (e - -1074) = 2 * 2 ^ 1073) as Hprod.
    { rewrite <- Z.pow_add_r by lia. replace (- e + (e - -1074)) with (Z.succ 1073) by lia.
      now rewrite Z.pow_succ_r by lia. }
    assert (2 * Zpos m < 2 ^ (- e)) as Hsmall by nia.
    rewrite Z.shiftr_div_pow2 by lia.
    replace (1 - e) with (Z.succ (- e)) by lia. rewrite Z.pow_succ_r by lia.
    rewrite Z.div_small by lia. reflexivity.
Qed.

(** A number of the format that is below 1/24 is at most the greatest
    such number. *)
Lemma below_24th_greatest (m : positive) (e : Z) :
  bounded prec emax m e = true ->
  24 * key (S754_finite false m e) < 2 ^ 1074 ->
  key (S754_finite false m e) <= key below_24th.
Proof.
  intros Hb Hk. destruct (bounded_digits _ _ Hb) as (Hd & He & _).
  pose proof (Zdigits2_bounds (Zpos m) ltac:(lia)) as [_ Hu].
  assert (Zpos m < 2 ^ 53) as Hm.
  { eapply Z.lt_le_trans; [exact Hu|]. apply Z.pow_le_mono_r; lia. }
  unfold key, scaled, below_24th in *.
  change (-57 - -1074) with 1017.
  destruct (Z.le_gt_cases (-57) e) as [Hge|Hlt].
  - replace (e - -1074) with ((e + 57) + 1017) in * by lia.
    rewrite Z.pow_add_r in * by lia.
    set (N := Zpos m * 2 ^ (e + 57)).
    assert (0 < 2 ^ 1017) as Hp by (apply Z.pow_pos_nonneg; lia).
    assert (24 * N * 2 ^ 1017 < 2 ^ 57 * 2 ^ 1017) as HN.
    { replace (2 ^ 57 * 2 ^ 1017) with (2 ^ 1074) by (rewrite <- Z.pow_add_r; lia || reflexivity).
      unfold N. lia. }
    assert (24 * N < 2 ^ 57) as HN' by nia.
    change (2 ^ 57) with 144115188075855872 in HN'.
    assert (N <= 6004799503160661) by lia.
    rewrite Z.mul_assoc. fold N. nia.
  - assert (2 ^ (e - -1074) <= 2 ^ 1016) as Hpe by (apply Z.pow_le_mono_r; lia).
    assert (0 < 2 ^ (e - -1074)) by (apply Z.pow_pos_nonneg; lia).
    replace (2 ^ 1017) with (2 * 2 ^ 1016) by (rewrite <- Z.pow_succ_r; lia || reflexivity).
    change (2 ^ 53) with 9007199254740992 in Hm.
    assert (0 < 2 ^ 1016) by (apply Z.pow_pos_nonneg; lia).
    nia.
Qed.

End ThresholdFacts.

(** ** Calculator.calculateAllModes: the distances with a result *)

Section AboveThresholdFacts.
Import CONFIG Calculator.

(** A positive mantissa whose exponent is in the range of the format is
    not rounded to zero, whatever is pending. *)
Lemma binary_round_aux_positive (s : bool) (m e : Z) (l : location) :
  0 < m -> -1074 <= e ->
  forall s', binary_round_aux prec emax s m e l <> S754_zero s'.
Proof.
  intros Hm He s'. unfold binary_round_aux.
  destruct (shr_fexp_m m e l ltac:(lia)) as [Ha He1].
  destruct (shr_fexp prec emax m e l) as [mrs' e1]. cbn [fst snd] in Ha, He1.
  pose proof (shift_keeps m e Hm He) as Hkeep. rewrite <- Ha in Hkeep.
  set (q := round_nearest_even (shr_m mrs') (loc_of_shr_record mrs')).
  assert (q = shr_m mrs' \/ q = shr_m mrs' + 1) as Hq
      by apply round_nearest_even_cases.
  assert (0 < q) as Hq0 by lia.
  assert (-1074 <= e1) as He1' by lia.
  destruct (shr_fexp_m q e1 loc_Exact ltac:(lia)) as [Ha2 _].
  destruct (shr_fexp prec emax q e1 loc_Exact) as [mrs'' e2]. cbn [fst] in Ha2.
  pose proof (shift_keeps q e1 Hq0 He1') as Hkeep2. rewrite <- Ha2 in Hkeep2.
  destruct (shr_m mrs'') as [|m2|m2]; [lia| |lia].
  destruct (e2 <=? emax - prec); discriminate.
Qed.

(** A number that is at least 1 divided by 100 is not zero. *)
Lemma div_n100_nonzero (x : number) :
  rounded false x -> 2 ^ 1074 <= key x -> strict_eq (div x n100) zero = false.
Proof.
  intros [->|[->|(m1 & e1 & -> & Hb)]] Hk.
  - exfalso. cbn [key scaled] in Hk.
    assert (0 < 2 ^ 1074) by (apply Z.pow_pos_nonneg; lia). lia.
  - reflexivity.
  - destruct (bounded_digits _ _ Hb) as (Hd & He & Hn).
    pose proof (Zdigits2_bounds (Zpos m1) ltac:(lia)) as [Hl Hu].
    unfold key, scaled in Hk.
    assert (Zpos m1 < 2 ^ 53) as Hm.
    { eapply Z.lt_le_trans; [exact Hu|]. apply Z.pow_le_mono_r; lia. }
    assert (-52 <= e1) as He52.
    { destruct (Z.le_gt_cases (-52) e1) as [|Hlt]; trivial. exfalso.
      assert (2 ^ (e1 - -1074) <= 2 ^ 1021) by (apply Z.pow_le_mono_r; lia).
      assert (2 ^ 1074 = 2 ^ 53 * 2 ^ 1021) as Hsplit
          by (rewrite <- Z.pow_add_r; reflexivity || lia).
      assert (0 < 2 ^ (e1 - -1074)) by (apply Z.pow_pos_nonneg; lia).
      nia. }
    assert (Zdigits2 (Zpos m1) = 53) as Hd53 by lia.
    assert (exists q e' l, SFdiv_core_binary prec emax (Zpos m1) e1
                             (Zpos 7036874417766400) (-46) = (q, e', l)
                           /\ 0 < q /\ -1074 <= e') as (q & e' & l & Hcore & Hq & He').
    { unfold SFdiv_core_binary. rewrite Hd53.
      change (Zdigits2 (Zpos 7036874417766400)) with 53.
      replace (53 + e1 - (53 + -46)) with (e1 + 46) by lia.
      rewrite fexp_spec.
      replace (Z.min (Z.max (e1 + 46 - 53) (-1074)) (e1 - -46)) with (e1 - 7) by lia.
      replace (e1 - -46 - (e1 - 7)) with 53 by lia.
      rewrite Z.shiftl_mul_pow2 by lia.
      pose proof (Z_div_mod (Zpos m1 * 2 ^ 53) (Zpos 7036874417766400) ltac:(lia))
        as Hdiv.
      destruct (Z.div_eucl _ _) as [q r]. destruct Hdiv as [Hq Hr].
      exists q, (e1 - 7), (new_location (Zpos 7036874417766400) r).
      split; [reflexivity|]. split; [|lia].
      change (2 ^ 53) with 9007199254740992 in Hq. nia. }
    unfold div, SFdiv, n100. change (of_Z 100) with (S754_finite false 7036874417766400 (-46)).
    cbn iota. rewrite Hcore.
    pose proof (binary_round_aux_positive (xorb false false) q e' l Hq He') as Hnz.
    destruct (binary_round_aux_sign_kept (xorb false false) q e' l ltac:(lia))
      as [H|[H|(m' & e2 & H)]]; rewrite H in *.
    + now elim (Hnz (xorb false false)).
    + reflexivity.
    + reflexivity.
Qed.

(** The value of an integer literal that is positive. *)
Lemma of_Z_key (n : positive) :
  rounded false (of_Z (Zpos n))
  /\ (of_Z (Zpos n) = S754_infinity false
      \/ key (of_Z (Zpos n)) = round_scaled (-1074) (Zpos n * 2 ^ 1074)).
Proof.
  split; [apply (of_Z_rounded (Zpos n))|].
  pose proof (of_Z_rounded (Zpos n)) as Hr. cbn [Z.ltb Z.compare] in Hr.
  unfold of_Z, binary_normalize, binary_round in *.
  destruct (shl_align_value n 0 (fexp prec emax (Zpos (digits2_pos n) + 0)))
    as [Hv Hs].
  destruct (shl_align n 0 _) as [mz ez]. cbn [fst snd] in Hv, Hs.
  pose proof (fexp_ge_emin (Zpos (digits2_pos n) + 0)) as Hge.
  destruct (binary_round_aux_value false mz ez (-1074) ltac:(lia) ltac:(lia))
    as [[H H0]|[[H _]|(m' & e' & H & He' & Hval)]].
  - right. rewrite H. cbn [key scaled]. rewrite <- H0. f_equal.
    rewrite Hv, <- Z.mul_assoc, <- Z.pow_add_r by lia. f_equal. f_equal. lia.
  - now left.
  - right. rewrite H. unfold key, scaled. rewrite Hval. f_equal.
    rewrite Hv, <- Z.mul_assoc, <- Z.pow_add_r by lia. f_equal. f_equal. lia.
Qed.

(** A rounded number that is at least one half is rounded by
    [Math.round] to a number that is at least 1. *)
Lemma Math_round_at_least_half (x : number) :
  rounded false x -> 2 ^ 1073 <= key x ->
  rounded false (Math_round x) /\ 2 ^ 1074 <= key (Math_round x).
Proof.
  intros [->|[->|(m & e & -> & Hb)]] Hk.
  - exfalso. cbn [key scaled] in Hk.
    assert (0 < 2 ^ 1073) by (apply Z.pow_pos_nonneg; lia). lia.
  - split; [right; now left|]. cbn [Math_round key].
    apply Z.pow_le_mono_r; lia.
  - destruct (bounded_digits _ _ Hb) as (_ & He & _).
    unfold key, scaled in Hk. unfold Math_round.
    destruct (Z.leb_spec 0 e) as [Hpos|Hneg].
    + split; [right; right; eauto|]. unfold key, scaled.
      assert (2 ^ 1074 <= 2 ^ (e - -1074)) by (apply Z.pow_le_mono_r; lia). nia.
    + cbn [cond_Zopp].
      assert (0 < 2 ^ (- e)) as Hp by (apply Z.pow_pos_nonneg; lia).
      assert (0 < 2 ^ (e - -1074)) as Hq by (apply Z.pow_pos_nonneg; lia).
      assert (2 ^ (- e) * 2 ^ (e - -1074) = 2 * 2 ^ 1073) as Hprod.
      { rewrite <- Z.pow_add_r by lia.
        replace (- e + (e - -1074)) with (Z.succ 1073) by lia.
        now rewrite Z.pow_succ_r by lia. }
      assert (2 ^ (- e) <= 2 * Zpos m) as Hbig by nia.
      rewrite Z.shiftr_div_pow2 by lia.
      replace (1 - e) with (Z.succ (- e)) by lia. rewrite Z.pow_succ_r by lia.
      assert (1 <= (2 * Zpos m + 2 ^ (- e)) / (2 * 2 ^ (- e))) as Hn
          by (apply Z.div_le_lower_bound; lia).
      destruct (_ / _) as [|n|n]; [lia| |lia].
      destruct (of_Z_key n) as [Hr [Hinf|Hval]].
      * split; trivial. rewrite Hinf. cbn [key]. apply Z.pow_le_mono_r; lia.
      * split; trivial. rewrite Hval.
        assert (0 < 2 ^ 1074) by (apply Z.pow_pos_nonneg; lia).
        eapply Z.le_trans;
          [|apply (round_scaled_mono (-1074) (1 * 2 ^ 1074)); lia].
        apply Zle_by_computation. vm_compute. reflexivity.
Qed.

(** A number of the format that is above 1/24 is at least the least
    such number. *)
Lemma above_24th_least (m : positive) (e : Z) :
  bounded prec emax m e = true ->
  2 ^ 1074 < 24 * key (S754_finite false m e) ->
  key above_24th <= key (S754_finite false m e).
Proof.
  intros Hb Hk. destruct (bounded_digits _ _ Hb) as (Hd & He & _).
  pose proof (Zdigits2_bounds (Zpos m) ltac:(lia)) as [_ Hu].
  assert (Zpos m < 2 ^ 53) as Hm.
  { eapply Z.lt_le_trans; [exact Hu|]. apply Z.pow_le_mono_r; lia. }
  unfold key, scaled, above_24th in *.
  change (-57 - -1074) with 1017.
  assert (0 < 2 ^ 1017) as Hp by (apply Z.pow_pos_nonneg; lia).
  assert (2 ^ 1074 = 2 ^ 57 * 2 ^ 1017) as Hsplit
      by (rewrite <- Z.pow_add_r; reflexivity || lia).
  destruct (Z.le_gt_cases (-57) e) as [Hge|Hlt].
  - replace (e - -1074) with ((e + 57) + 1017) in * by lia.
    rewrite Z.pow_add_r in * by lia.
    set (N := Zpos m * 2 ^ (e + 57)).
    assert (2 ^ 57 * 2 ^ 1017 < 24 * N * 2 ^ 1017) as HN by (unfold N; lia).
    assert (2 ^ 57 < 24 * N) as HN' by nia.
    change (2 ^ 57) with 144115188075855872 in HN'.
    assert (6004799503160662 <= N) by lia.
    rewrite Z.mul_assoc. fold N. nia.
  - exfalso.
    assert (2 ^ (e - -1074) <= 2 ^ 1016) as Hpe by (apply Z.pow_le_mono_r; lia).
    assert (0 < 2 ^ (e - -1074)) by (apply Z.pow_pos_nonneg; lia).
    assert (2 ^ 1017 = 2 * 2 ^ 1016) as H16
        by (rewrite <- Z.pow_succ_r; reflexivity || lia).
    change (2 ^ 53) with 9007199254740992 in Hm.
    change (2 ^ 57) with 144115188075855872 in Hsplit.
    assert (0 < 2 ^ 1016) by (apply Z.pow_pos_nonneg; lia).
    nia.
Qed.

(** The emission of the car is not zero for a positive distance of the
    format above 1/24 km. *)
Lemma car_emission_above_24th (m : positive) (e : Z) :
  bounded prec emax m e = true ->
  2 ^ 1074 < 24 * key (S754_finite false m e) ->
  strict_eq (calculateEmission (S754_finite false m e) (js "car")) zero = false.
Proof.
  intros Hb Hk. pose proof (above_24th_least m e Hb Hk) as Hmin.
  unfold calculateEmission, get. rewrite car_factor.
  change (falsy (js "car")) with false.
  cbn [orb JSNumber.ltb SFltb SFcompare ToNumber].
  change (dec 12 2) with (S754_finite false 8646911284551352 (-56)).
  set (p := mul above_24th (S754_finite false 8646911284551352 (-56))).
  destruct (mul_key_lower m 8646911284551352 e (-56)
              (key above_24th * 8646911284551352) (key p) Hb eq_refl ltac:(lia))
    as (Hr1 & Hk1).
  { apply Zlt_by_computation. vm_compute. reflexivity. }
  { apply Z.mul_le_mono_nonneg_r; lia. }
  { apply Zle_by_computation. vm_compute. reflexivity. }
  { apply Zle_by_computation. vm_compute. reflexivity. }
  set (r1 := mul (S754_finite false m e) (S754_finite false 8646911284551352 (-56))) in *.
  assert (0 < key p) as Hp0 by (apply Zlt_by_computation; vm_compute; reflexivity).
  destruct Hr1 as [Hr1|[Hr1|(m1 & e1 & Hr1 & Hb1)]]; rewrite Hr1 in *.
  { cbn [key scaled] in Hk1. lia. }
  { reflexivity. }
  rewrite round2_positive_divisor at 1.
  destruct (mul_key_lower m1 7036874417766400 e1 (-46)
              (key p * 7036874417766400) (2 ^ 1073) Hb1 eq_refl ltac:(lia))
    as (Hr2 & Hk2).
  { apply Zlt_by_computation. vm_compute. reflexivity. }
  { apply Z.mul_le_mono_nonneg_r; lia. }
  { apply Zle_by_computation. vm_compute. reflexivity. }
  { apply Z.pow_le_mono_r; lia. }
  destruct (Math_round_at_least_half _ Hr2 Hk2) as [Hr3 Hk3].
  now apply div_n100_nonzero.
Qed.

End AboveThresholdFacts.

Section ThresholdClaim.
Import CONFIG Calculator.

(** The emission of the car is zero for every positive distance of the
    format below 1/24 km. *)
Lemma car_emission_below_24th (m : positive) (e : Z) :
  bounded prec emax m e = true ->
  24 * key (S754_finite false m e) < 2 ^ 1074 ->
  calculateEmission (S754_finite false m e) (js "car") = S754_zero false.
Proof.
  intros Hb Hk. pose proof (below_24th_greatest m e Hb Hk) as Hmax.
  unfold calculateEmission, get. rewrite car_factor.
  cbn [orb JSNumber.ltb SFltb SFcompare ToNumber falsy js].
  change (falsy (js "car")) with false. cbn [orb].
  change (dec 12 2) with (S754_finite false 8646911284551352 (-56)).
  rewrite round2_positive_divisor.
  set (p := mul below_24th (S754_finite false 8646911284551352 (-56))).
  destruct (mul_key_bound m 8646911284551352 e (-56)
              (key below_24th * 8646911284551352) (key p) Hb eq_refl ltac:(lia))
    as (Hr1 & Hinf1 & Hk1).
  { apply Z.mul_le_mono_nonneg_r; lia. }
  { apply Zle_by_computation. vm_compute. reflexivity. }
  { apply Zlt_by_computation. vm_compute. reflexivity. }
  set (r1 := mul (S754_finite false m e) (S754_finite false 8646911284551352 (-56))) in *.
  destruct Hr1 as [Hr1|[Hr1|(m1 & e1 & Hr1 & Hb1)]]; [|contradiction|].
  { rewrite Hr1. reflexivity. }
  rewrite Hr1 in *.
  set (q := mul p (S754_finite false 7036874417766400 (-46))).
  destruct (mul_key_bound m1 7036874417766400 e1 (-46)
              (key p * 7036874417766400) (key q) Hb1 eq_refl ltac:(lia))
    as (Hr2 & Hinf2 & Hk2).
  { apply Z.mul_le_mono_nonneg_r; lia. }
  { apply Zle_by_computation. vm_compute. reflexivity. }
  { apply Zlt_by_computation. vm_compute. reflexivity. }
  rewrite (Math_round_below_half _ Hr2); [reflexivity|].
  eapply Z.le_lt_trans; [exact Hk2|].
  apply Zlt_by_computation. vm_compute. reflexivity.
Qed.

Lemma calculateAllModes_not_empty (distanceKm : number) :
  strict_eq (calculateEmission distanceKm (js "car")) zero = false ->
  calculateAllModes distanceKm <> [].
Proof.
  intros Hnz Hnil. unfold calculateAllModes in Hnil. rewrite Hnz in Hnil.
  pose proof (sort_perm byEmission
                (map (entry distanceKm (calculateEmission distanceKm (js "car")))
                     (Object_keys EMISSION_FACTORS))) as Hperm.
  rewrite Hnil in Hperm. apply Permutation_nil in Hperm. discriminate Hperm.
Qed.

(** 1/24 is not a number of the format. *)
Lemma not_24th (K : Z) : 24 * K <> 2 ^ 1074.
Proof.
  intros H.
  assert ((24 * K) mod 3 = 0) as H0
      by (replace (24 * K) with (8 * K * 3) by ring; apply Z.mod_mul; lia).
  rewrite H in H0. vm_compute in H0. discriminate H0.
Qed.

(** The emission of the car is zero exactly below 1/24 km. *)
Lemma car_emission_zero_iff (distanceKm : number) :
  valid distanceKm -> leb zero distanceKm = true ->
  strict_eq (calculateEmission distanceKm (js "car")) zero = true
  <-> 24 * key distanceKm < 2 ^ 1074.
Proof.
  intros Hv Hpos.
  destruct distanceKm as [s|[]| |[] m e]; try discriminate Hpos.
  - split; intros _.
    + cbn [key scaled]. apply Z.pow_pos_nonneg; lia.
    + destruct s; reflexivity.
  - split; [discriminate|]. intros Hk. exfalso. cbn [key] in Hk.
    assert (2 ^ 1074 < 2 ^ 2100) by (apply Z.pow_lt_mono_r; lia). lia.
  - split.
    + intros Hz.
      destruct (Z.lt_trichotomy (24 * key (S754_finite false m e)) (2 ^ 1074))
        as [Hlt|[Heq|Hgt]]; trivial.
      * now apply not_24th in Heq.
      * rewrite (car_emission_above_24th m e Hv Hgt) in Hz. discriminate Hz.
    + intros Hk. now rewrite (car_emission_below_24th m e Hv Hk).
Qed.

(** C10. The distances for which [calculateAllModes] returns the empty
    sequence are more than the distance 0: the result is empty exactly
    when the emission of the car is 0, which it is for every negative
    distance and, among the distances that are not negative, exactly
    for those below 1/24 km; 0.01 km is one of them that is not zero. *)
Theorem calculateAllModes_empty_below_24th (distanceKm : number) :
  valid distanceKm ->
  (JSNumber.ltb distanceKm zero = true ->
   strict_eq (calculateEmission distanceKm (js "car")) zero = true)
  /\ (leb zero distanceKm = true ->
      (strict_eq (calculateEmission distanceKm (js "car")) zero = true
       <-> 24 * key distanceKm < 2 ^ 1074))
  /\ (strict_eq (calculateEmission distanceKm (js "car")) zero = true ->
      calculateAllModes distanceKm = [])
  /\ (strict_eq (calculateEmission distanceKm (js "car")) zero = false ->
      calculateAllModes distanceKm <> [])
  /\ (strict_eq (dec 1 2) zero = false /\ 24 * key (dec 1 2) < 2 ^ 1074
      /\ calculateAllModes (dec 1 2) = [])
  /\ (24 * key below_24th < 2 ^ 1074 /\ 2 ^ 1074 < 24 * key above_24th
      /\ calculateEmission above_24th (js "car") = dec 1 2).
Proof.
  intros Hv.
  split; [intros Hneg; now rewrite calculateEmission_negative|].
  split; [intros Hpos; now apply car_emission_zero_iff|].
  split; [apply calculateAllModes_guard|].
  split; [apply calculateAllModes_not_empty|].
  split; [split; [reflexivity|split; [|reflexivity]]|split; [|split; [|reflexivity]]];
    apply Zlt_by_computation; vm_compute; reflexivity.
Qed.

Lemma calculateAllModes_empty_below_24th_witness :
  valid (dec 1 2)
  /\ (strict_eq (calculateEmission (dec 1 2) (js "car")) zero = true
      <-> 24 * key (dec 1 2) < 2 ^ 1074).
Proof.
  split; [reflexivity|].
  exact (proj1 (proj2 (calculateAllModes_empty_below_24th (dec 1 2) eq_refl)) eq_refl).
Defined.

End ThresholdClaim.

Section BaselineClaim.
Import CONFIG Calculator.

(** C5, as the code has it.  [calculateAllModes] takes the emission of
    the car as baseline and returns the empty sequence whenever this
    baseline is 0, before any division by it.  The baseline is 0 when
    the distance is 0, so [calculateAllModes(0)] is empty, but not only
    then: it is 0 for every negative distance and, among the distances
    that are not negative, exactly for those below 1/24 km, such as
    0.01 km. *)
Theorem calculateAllModes_zero_baseline (distanceKm : number) :
  (strict_eq (calculateEmission distanceKm (js "car")) zero = true ->
   calculateAllModes distanceKm = [])
  /\ (strict_eq distanceKm zero = true ->
      strict_eq (calculateEmission distanceKm (js "car")) zero = true
      /\ calculateAllModes distanceKm = [])
  /\ (JSNumber.ltb distanceKm zero = true ->
      strict_eq (calculateEmission distanceKm (js "car")) zero = true)
  /\ (valid distanceKm -> leb zero distanceKm = true ->
      (strict_eq (calculateEmission distanceKm (js "car")) zero = true
       <-> 24 * key distanceKm < 2 ^ 1074))
  /\ calculateAllModes (of_Z 0) = []
  /\ (strict_eq (dec 1 2) zero = false
      /\ strict_eq (calculateEmission (dec 1 2) (js "car")) zero = true).
Proof.
  split; [apply calculateAllModes_guard|].
  split; [|split; [|split; [|split; [reflexivity | split; reflexivity]]]].
  - intros Hd.
    assert (strict_eq (calculateEmission distanceKm (js "car")) zero = true) as Hc.
    { apply calculateEmission_zero_distance; [assumption | discriminate]. }
    split; [assumption | now apply calculateAllModes_guard].
  - intros Hneg. now rewrite calculateEmission_negative.
  - apply car_emission_zero_iff.
Qed.

Lemma calculateAllModes_zero_baseline_witness :
  strict_eq (of_Z 0) zero = true /\ calculateAllModes (of_Z 0) = [].
Proof.
  split; [reflexivity|].
  exact (proj2 (proj1 (proj2 (calculateAllModes_zero_baseline (of_Z 0))) eq_refl)).
Defined.

(** C5, as stated, fails: at 0.01 km the baseline is 0 although the
    distance is not. *)
Lemma baseline_zero_iff_distance_zero_counterexample :
  ~ (forall distanceKm,
        strict_eq (calculateEmission distanceKm (js "car")) zero = true
        <-> strict_eq distanceKm zero = true).
Proof.
  intros H. specialize (H (dec 1 2)). destruct H as [H _].
  discriminate H. reflexivity.
Qed.

End BaselineClaim.

(** ** Calculator.calculateSavings *)

Section SavingsFacts.
Import CONFIG Calculator.

Lemma n10000_positive_divisor : n10000 = S754_finite false 5497558138880000 (-39).
Proof. reflexivity. Qed.

Lemma lt_zero_shape (x : number) : JSNumber.ltb x zero = true -> shape true x.
Proof.
  destruct x as [[]|[]| |[] m e]; try discriminate; intros _.
  - right. now left.
  - right. right. eauto.
Qed.

Lemma div_shape (s : bool) (x : number) (my : positive) (ey : Z) :
  shape s x -> shape s (div x (S754_finite false my ey)).
Proof. intros Hx. now apply rounded_shape, div_shape_rounded. Qed.

(** An emission above a baseline that is not zero gives a saving and a
    percentage that are negative, or the negative zero. *)
Lemma calculateSavings_negative (emission baselineEmission : number) :
  rounded false emission -> rounded false baselineEmission ->
  strict_eq baselineEmission zero = false ->
  JSNumber.ltb baselineEmission emission = true ->
  shape true (savedKg (calculateSavings emission baselineEmission))
  /\ shape true (percentage (calculateSavings emission baselineEmission)).
Proof.
  intros He Hb Hnz Hlt.
  assert (shape true (sub baselineEmission emission)) as Hsub.
  { apply lt_zero_shape. now rewrite sub_lt_zero. }
  assert (exists mb eb, baselineEmission = S754_finite false mb eb) as (mb & eb & Hbase).
  { destruct Hb as [->|[->|(mb & eb & -> & _)]]; [discriminate Hnz| |eauto].
    destruct He as [->|[->|(me & ee & -> & _)]]; discriminate Hlt. }
  unfold calculateSavings. rewrite Hnz. cbn [savedKg percentage].
  assert (shape true (div (Math_round (mul (sub baselineEmission emission) n100)) n100))
    as Hsaved.
  { rewrite round2_positive_divisor. apply div_shape, Math_round_shape.
    now apply mul_shape. }
  split; [exact Hsaved|].
  rewrite round2_positive_divisor, n10000_positive_divisor in *.
  apply div_shape, Math_round_shape, mul_shape.
  rewrite Hbase at 2. now apply div_shape.
Qed.

(** C3, as the code has it.  With a baseline that is not 0, [savedKg] is
    the difference rounded to two decimals by [Math.round], which takes
    a tie to the larger integer, and [percentage] is computed from this
    rounded [savedKg]; the results are returned as computed: for an
    emission above the baseline they are negative, or the negative zero
    when they round to zero. *)
Theorem calculateSavings_two_roundings (emission baselineEmission : number) :
  strict_eq baselineEmission zero = false ->
  (let r := calculateSavings emission baselineEmission in
   savedKg r = div (Math_round (mul (sub baselineEmission emission) (of_Z 100))) (of_Z 100)
   /\ percentage r
      = div (Math_round (mul (div (savedKg r) baselineEmission) (of_Z 10000))) (of_Z 100)
   /\ (rounded false emission -> rounded false baselineEmission ->
       JSNumber.ltb baselineEmission emission = true ->
       shape true (savedKg r) /\ shape true (percentage r)))
  /\ calculateSavings (dec 89 1) (of_Z 12)
     = {| savedKg := dec 31 1; percentage := dec 2583 2 |}
  /\ calculateSavings (of_Z 12) (dec 89 1)
     = {| savedKg := dec (-31) 1; percentage := dec (-3483) 2 |}
  /\ calculateSavings (dec 12001 3) (of_Z 12)
     = {| savedKg := S754_zero true; percentage := S754_zero true |}
  /\ savedKg (calculateSavings (dec 1125 3) (of_Z 1)) = dec (-12) 2.
Proof.
  intros Hb. split; [|repeat split; vm_compute; reflexivity].
  split; [|split].
  - unfold calculateSavings. now rewrite Hb.
  - unfold calculateSavings. now rewrite Hb.
  - intros He Hbase Hlt. now apply calculateSavings_negative.
Qed.

Lemma calculateSavings_two_roundings_witness :
  strict_eq (dec 89 1) zero = false
  /\ savedKg (calculateSavings (of_Z 12) (dec 89 1))
     = div (Math_round (mul (sub (dec 89 1) (of_Z 12)) (of_Z 100))) (of_Z 100).
Proof.
  split; [reflexivity|].
  apply (calculateSavings_two_roundings (of_Z 12) (dec 89 1)). reflexivity.
Defined.

(** C3, as stated, fails in two places.  On a tie below zero: for an
    emission of 1.125 and a baseline of 1 the difference times 100 is
    -12.5, which [Math.round] takes to -12 and a rounding away from zero
    to -13.  On a small excess: for an emission of 12.001 and a baseline
    of 12 the two results are the negative zero, which is not below
    zero. *)
Lemma calculateSavings_tie_counterexample :
  ~ (forall emission baselineEmission,
        strict_eq baselineEmission zero = false ->
        savedKg (calculateSavings emission baselineEmission)
        = round2 (sub baselineEmission emission))
  /\ ~ (forall emission baselineEmission,
           strict_eq baselineEmission zero = false ->
           JSNumber.ltb baselineEmission emission = true ->
           JSNumber.ltb (savedKg (calculateSavings emission baselineEmission)) zero = true
           /\ JSNumber.ltb (percentage (calculateSavings emission baselineEmission)) zero
              = true).
Proof.
  split; intros H.
  - specialize (H (dec 1125 3) (of_Z 1) eq_refl).
    vm_compute in H. discriminate H.
  - specialize (H (dec 12001 3) (of_Z 12) eq_refl eq_refl).
    destruct H as [H _]. vm_compute in H. discriminate H.
Qed.

End SavingsFacts.
